(** * Streaming Base64 and Quoted-Printable decoders

    A shallow embedding of [annotated_decoders.py] (python-multipart's
    [Base64Decoder] and [QuotedPrintableDecoder]) and the properties its
    specification states about them.

    Python [bytes] are lists of [Byte.byte]; lengths and indices are [nat]
    (Python integers are unbounded).  The two decoder objects are records
    with the fields [cache] and [underlying]; their methods are computations
    in a small state-and-exception monad, so that a raised [DecodeError]
    leaves behind exactly the state the object had when the [raise] ran. *)

From Stdlib Require Import String DecimalString.
From Stdlib Require Import Init.Byte Strings.Byte.
From Stdlib Require Import List Arith NArith Bool Lia.
Import ListNotations.

Local Open Scope list_scope.

(** ** Bytes *)

Definition bytes := list byte.

(** [b"..."] literals. *)
Definition b (s : string) : bytes := list_byte_of_string s.

Definition CR : byte := x0d.
Definition LF : byte := x0a.
Definition EQUALS : byte := x3d.

(** Truncation of a C [int] value to an [unsigned char]. *)
Definition byte_of_N (n : N) : byte :=
  match Byte.of_N (n mod 256) with
  | Some c => c
  | None => x00
  end.

(** Python's [data[:k]] for [0 <= k]. *)
Definition slice_to (k : nat) (data : bytes) : bytes := firstn k data.

(** Python's [data[-k:]] for [0 < k]: the start index [len - k] is clamped
    at 0. *)
Definition slice_last (k : nat) (data : bytes) : bytes :=
  skipn (length data - k) data.

(** Python's [data[:-k]] for [0 < k]: the stop index [len - k] is clamped
    at 0. *)
Definition slice_drop_last (k : nat) (data : bytes) : bytes :=
  firstn (length data - k) data.

(** Python's [bytes.find] with a one-byte needle: the index of the first
    occurrence, or -1 (here [None]). *)
Fixpoint find (data : bytes) (c : byte) : option nat :=
  match data with
  | [] => None
  | x :: rest =>
      if Byte.eqb x c then Some 0
      else match find rest c with
           | Some i => Some (S i)
           | None => None
           end
  end.

Definition found (r : option nat) : bool :=
  match r with Some _ => true | None => false end.

(** ** The sink ([SupportsWrite])

    The decoders only ever call [write], and [close] / [finalize] when
    [hasattr] says the sink has them.  A sink is modelled by the two
    capabilities and the log of the calls it received. *)

Inductive sink_call : Type :=
| SinkWrite (data : bytes)
| SinkClose
| SinkFinalize.

Record Sink : Type := mkSink {
  has_close : bool;
  has_finalize : bool;
  calls : list sink_call
}.

Definition sink_record (c : sink_call) (s : Sink) : Sink :=
  mkSink (has_close s) (has_finalize s) (calls s ++ [c]).

Definition new_sink (hc hf : bool) : Sink := mkSink hc hf [].

(** The payloads of the [write] calls a sink received, in order. *)
Fixpoint writes_of (l : list sink_call) : list bytes :=
  match l with
  | [] => []
  | SinkWrite d :: rest => d :: writes_of rest
  | _ :: rest => writes_of rest
  end.

(** All the bytes forwarded to a sink, concatenated. *)
Definition forwarded (s : Sink) : bytes := concat (writes_of (calls s)).

(** ** Exceptions and the method monad *)

Inductive exn : Type :=
| DecodeError (msg : string).

Inductive outcome (A : Type) : Type :=
| Returns (a : A)
| Raises (e : exn).
Arguments Returns {A} a.
Arguments Raises {A} e.

(** A method body: from the object's state to an outcome and the state the
    object is left in. *)
Definition M (S A : Type) : Type := S -> outcome A * S.

Definition ret {S A} (a : A) : M S A := fun s => (Returns a, s).

Definition bind {S A B} (m : M S A) (k : A -> M S B) : M S B :=
  fun s =>
    match m s with
    | (Returns a, s') => k a s'
    | (Raises e, s') => (Raises e, s')
    end.

Definition raise {S A} (e : exn) : M S A := fun s => (Raises e, s).
Definition get {S} : M S S := fun s => (Returns s, s).
Definition put {S} (s : S) : M S unit := fun _ => (Returns tt, s).

Declare Scope method_scope.
Delimit Scope method_scope with method.
Notation "x <- m ;; k" := (bind m (fun x => k))
  (at level 61, m at next level, right associativity) : method_scope.
Notation "m ;; k" := (bind m (fun _ => k))
  (at level 61, right associativity) : method_scope.

Definition raised {A} (o : outcome A) : bool :=
  match o with Raises _ => true | Returns _ => false end.

(** ** [base64.b64decode]

    [base64.b64decode(s)] with the default [validate=False] is
    [binascii.a2b_base64(s, strict_mode=False)].  The model follows CPython's
    loop: bytes outside the alphabet are skipped, a pad sequence that
    completes a quad ends the decoding, and an incomplete quad at the end of
    the input is a [binascii.Error] ([None]). *)

(** [table_a2b_base64]: the sextet of an alphabet byte, 255 (the C table's
    -1) for every other byte; the pad maps to 0 and is tested before the
    table is consulted. *)
Definition table_a2b_base64 (c : byte) : N :=
  let n := Byte.to_N c in
  (if (65 <=? n) && (n <=? 90) then n - 65            (* A-Z *)
   else if (97 <=? n) && (n <=? 122) then n - 97 + 26 (* a-z *)
   else if (48 <=? n) && (n <=? 57) then n - 48 + 52  (* 0-9 *)
   else if n =? 43 then 62                            (* + *)
   else if n =? 47 then 63                            (* / *)
   else if n =? 61 then 0                             (* = *)
   else 255)%N.

Fixpoint a2b_base64_loop (ascii_data : bytes) (quad_pos : nat) (leftchar : N)
    (pads : nat) (bin_data : bytes) : option bytes :=
  match ascii_data with
  | [] => if Nat.eqb quad_pos 0 then Some bin_data else None
  | c :: rest =>
      if Byte.eqb c EQUALS then
        if Nat.leb 2 quad_pos then
          (* [quad_pos + ++pads >= 4] *)
          if Nat.leb 4 (quad_pos + S pads) then Some bin_data
          else a2b_base64_loop rest quad_pos leftchar (S pads) bin_data
        else a2b_base64_loop rest quad_pos leftchar pads bin_data
      else
        let this_ch := table_a2b_base64 c in
        if (64 <=? this_ch)%N then
          a2b_base64_loop rest quad_pos leftchar pads bin_data
        else
          match quad_pos with
          | 0 => a2b_base64_loop rest 1 this_ch 0 bin_data
          | 1 =>
              a2b_base64_loop rest 2 (N.land this_ch 15) 0
                (bin_data ++
                 [byte_of_N (N.lor (N.shiftl leftchar 2) (N.shiftr this_ch 4))])
          | 2 =>
              a2b_base64_loop rest 3 (N.land this_ch 3) 0
                (bin_data ++
                 [byte_of_N (N.lor (N.shiftl leftchar 4) (N.shiftr this_ch 2))])
          | _ =>
              a2b_base64_loop rest 0 0 0
                (bin_data ++ [byte_of_N (N.lor (N.shiftl leftchar 6) this_ch)])
          end
  end.

Definition a2b_base64 (data : bytes) : option bytes :=
  a2b_base64_loop data 0 0 0 [].

Definition b64decode (s : bytes) : option bytes := a2b_base64 s.

(** ** [binascii.a2b_qp]

    [binascii.a2b_qp(data)] with the default [header=False], following
    CPython's loop over the input: the argument is the part of the input
    from the read index on. *)

Definition is_hex (c : byte) : bool :=
  let n := Byte.to_N c in
  ((65 <=? n) && (n <=? 70) || (97 <=? n) && (n <=? 102)
   || (48 <=? n) && (n <=? 57))%N.

(** [_PyLong_DigitValue] on the hexadecimal digits. *)
Definition digit_value (c : byte) : N :=
  let n := Byte.to_N c in
  (if (48 <=? n) && (n <=? 57) then n - 48
   else if (65 <=? n) && (n <=? 70) then n - 55
   else n - 87)%N.

Fixpoint a2b_qp (data : bytes) : bytes :=
  match data with
  | [] => []
  | c :: after =>
      if Byte.eqb c EQUALS then
        match after with
        | [] => []
        | c1 :: after1 =>
            if Byte.eqb c1 LF then a2b_qp after1
            else if Byte.eqb c1 CR then
              (* soft line break: skip up to and including the next LF *)
              (fix skip (l : bytes) : bytes :=
                 match l with
                 | [] => []
                 | x :: l' => if Byte.eqb x LF then a2b_qp l' else skip l'
                 end) after1
            else if Byte.eqb c1 EQUALS then EQUALS :: a2b_qp after1
            else
              match after1 with
              | c2 :: after2 =>
                  if is_hex c1 && is_hex c2 then
                    byte_of_N (N.lor (N.shiftl (digit_value c1) 4)
                                     (digit_value c2))
                    :: a2b_qp after2
                  else EQUALS :: a2b_qp after
              | [] => EQUALS :: a2b_qp after
              end
        end
      else c :: a2b_qp after
  end.

(** ** [Base64Decoder] *)

Module Base64Decoder.

Record t : Type := mk {
  cache : bytes;
  underlying : Sink
}.

(** [__init__] *)
Definition init (underlying : Sink) : t := mk [] underlying.

Definition bad_base64 : exn :=
  DecodeError "There was an error raised while decoding base64-encoded data.".

Definition incomplete_base64 (n : nat) : exn :=
  DecodeError
    ("There are " ++ NilZero.string_of_uint (Nat.to_uint n)
     ++ " bytes remaining in the Base64Decoder cache when finalize() is called")%string.

(** [self.underlying.write(decoded)] *)
Definition underlying_write (decoded : bytes) : M t unit :=
  fun self =>
    (Returns tt,
     mk (cache self) (sink_record (SinkWrite decoded) (underlying self))).

(** [self.cache[:] = v] *)
Definition set_cache (v : bytes) : M t unit :=
  fun self => (Returns tt, mk v (underlying self)).

(** [try: base64.b64decode(val) except binascii.Error: raise DecodeError] *)
Definition try_b64decode (val : bytes) : M t bytes :=
  match b64decode val with
  | Some decoded => ret decoded
  | None => raise bad_base64
  end.

Local Open Scope method_scope.

Definition write (data : bytes) : M t nat :=
  self <- get ;;
  let data :=
    if 0 <? length (cache self) then cache self ++ data else data in
  let decode_len := (length data / 4) * 4 in
  let val := slice_to decode_len data in
  (if 0 <? length val then
     decoded <- try_b64decode val ;;
     underlying_write decoded
   else ret tt) ;;
  let remaining_len := length data mod 4 in
  (if 0 <? remaining_len then set_cache (slice_last remaining_len data)
   else set_cache []) ;;
  ret (length data).

Definition close : M t unit :=
  fun self =>
    if has_close (underlying self) then
      (Returns tt, mk (cache self) (sink_record SinkClose (underlying self)))
    else (Returns tt, self).

Definition finalize : M t unit :=
  self <- get ;;
  (if 0 <? length (cache self) then
     raise (incomplete_base64 (length (cache self)))
   else ret tt) ;;
  fun self =>
    if has_finalize (underlying self) then
      (Returns tt,
       mk (cache self) (sink_record SinkFinalize (underlying self)))
    else (Returns tt, self).

(** A caller's loop [for chunk in chunks: decoder.write(chunk)]. *)
Fixpoint write_all (chunks : list bytes) : M t unit :=
  match chunks with
  | [] => ret tt
  | chunk :: more => write chunk ;; write_all more
  end.

(** The whole life of a stream: the writes, then [finalize()]. *)
Definition decode_stream (chunks : list bytes) : M t unit :=
  write_all chunks ;; finalize.

End Base64Decoder.

(** ** [QuotedPrintableDecoder] *)

Module QuotedPrintableDecoder.

Record t : Type := mk {
  cache : bytes;
  underlying : Sink
}.

(** [__init__] *)
Definition init (underlying : Sink) : t := mk [] underlying.

(** [self.underlying.write(decoded)] *)
Definition underlying_write (decoded : bytes) : M t unit :=
  fun self =>
    (Returns tt,
     mk (cache self) (sink_record (SinkWrite decoded) (underlying self))).

(** [self.cache = v] *)
Definition set_cache (v : bytes) : M t unit :=
  fun self => (Returns tt, mk v (underlying self)).

Local Open Scope method_scope.

Definition write (data : bytes) : M t nat :=
  self <- get ;;
  let data :=
    if 0 <? length (cache self) then cache self ++ data else data in
  let '(enc, rest) :=
    if found (find (slice_last 2 data) EQUALS)
    then (slice_drop_last 2 data, slice_last 2 data)
    else (data, []) in
  (if 0 <? length enc then underlying_write (a2b_qp enc) else ret tt) ;;
  set_cache rest ;;
  ret (length data).

Definition close : M t unit :=
  fun self =>
    if has_close (underlying self) then
      (Returns tt, mk (cache self) (sink_record SinkClose (underlying self)))
    else (Returns tt, self).

Definition finalize : M t unit :=
  self <- get ;;
  (if 0 <? length (cache self) then
     underlying_write (a2b_qp (cache self)) ;;
     set_cache []
   else ret tt) ;;
  fun self =>
    if has_finalize (underlying self) then
      (Returns tt,
       mk (cache self) (sink_record SinkFinalize (underlying self)))
    else (Returns tt, self).

(** A caller's loop [for chunk in chunks: decoder.write(chunk)]. *)
Fixpoint write_all (chunks : list bytes) : M t unit :=
  match chunks with
  | [] => ret tt
  | chunk :: more => write chunk ;; write_all more
  end.

(** The whole life of a stream: the writes, then [finalize()]. *)
Definition decode_stream (chunks : list bytes) : M t unit :=
  write_all chunks ;; finalize.

End QuotedPrintableDecoder.

(** ** The standard Base64 encoding

    The reference the round-trip property is stated against: RFC 4648's
    encoding with padding, which is what [base64.b64encode] computes. *)

Definition table_b2a_base64 (n : N) : byte :=
  nth (N.to_nat n)
    (b "ABCDEFGHIJKLMNOPQRSTUVWXYZabcdefghijklmnopqrstuvwxyz0123456789+/")
    x00.

Definition sextet0 (x : byte) : N := N.shiftr (Byte.to_N x) 2.
Definition sextet1 (x y : byte) : N :=
  N.lor (N.shiftl (N.land (Byte.to_N x) 3) 4) (N.shiftr (Byte.to_N y) 4).
Definition sextet2 (y z : byte) : N :=
  N.lor (N.shiftl (N.land (Byte.to_N y) 15) 2) (N.shiftr (Byte.to_N z) 6).
Definition sextet3 (z : byte) : N := N.land (Byte.to_N z) 63.

Fixpoint b64encode (s : bytes) : bytes :=
  match s with
  | [] => []
  | [x] =>
      [table_b2a_base64 (sextet0 x);
       table_b2a_base64 (N.shiftl (N.land (Byte.to_N x) 3) 4);
       EQUALS; EQUALS]
  | [x; y] =>
      [table_b2a_base64 (sextet0 x);
       table_b2a_base64 (sextet1 x y);
       table_b2a_base64 (N.shiftl (N.land (Byte.to_N y) 15) 2);
       EQUALS]
  | x :: y :: z :: more =>
      table_b2a_base64 (sextet0 x) :: table_b2a_base64 (sextet1 x y)
      :: table_b2a_base64 (sextet2 y z) :: table_b2a_base64 (sextet3 z)
      :: b64encode more
  end.


(** ** Notions the properties are stated with *)

(** The combined buffer a [write] works on. *)
Definition b64_buffer (self : Base64Decoder.t) (data : bytes) : bytes :=
  Base64Decoder.cache self ++ data.

(** Its 4-byte-aligned decodable prefix. *)
Definition b64_prefix (self : Base64Decoder.t) (data : bytes) : bytes :=
  slice_to (length (b64_buffer self data) / 4 * 4) (b64_buffer self data).

(** The bytes after the prefix. *)
Definition b64_remainder (self : Base64Decoder.t) (data : bytes) : bytes :=
  skipn (length (b64_buffer self data) / 4 * 4) (b64_buffer self data).

(** The combined buffer of the quoted-printable [write]. *)
Definition qp_buffer (self : QuotedPrintableDecoder.t) (data : bytes) : bytes :=
  QuotedPrintableDecoder.cache self ++ data.

(** Whether its last two bytes hold an equals sign. *)
Definition qp_tail_has_equals (self : QuotedPrintableDecoder.t) (data : bytes)
  : bool :=
  found (find (slice_last 2 (qp_buffer self data)) EQUALS).

Definition qp_forward (enc : bytes) (s : Sink) : Sink :=
  match enc with
  | [] => s
  | _ :: _ => sink_record (SinkWrite (a2b_qp enc)) s
  end.

(** A byte of the Base64 alphabet (the pad is not one). *)
Definition is_alphabet (c : byte) : bool :=
  negb (Byte.eqb c EQUALS) && (table_a2b_base64 c <? 64)%N.

Definition count_alphabet (data : bytes) : nat :=
  length (filter is_alphabet data).

Definition count_non_alphabet (data : bytes) : nat :=
  length (filter (fun c => negb (is_alphabet c)) data).

(** The calls a client can make on a decoder. *)
Inductive method_call : Type :=
| CallWrite (data : bytes)
| CallFinalize
| CallClose.

(** The state a Base64 decoder is left in by a call, whether it returned or
    raised. *)
Definition b64_after (self : Base64Decoder.t) (c : method_call)
  : Base64Decoder.t :=
  match c with
  | CallWrite data => snd (Base64Decoder.write data self)
  | CallFinalize => snd (Base64Decoder.finalize self)
  | CallClose => snd (Base64Decoder.close self)
  end.

Definition qp_after (self : QuotedPrintableDecoder.t) (c : method_call)
  : QuotedPrintableDecoder.t :=
  match c with
  | CallWrite data => snd (QuotedPrintableDecoder.write data self)
  | CallFinalize => snd (QuotedPrintableDecoder.finalize self)
  | CallClose => snd (QuotedPrintableDecoder.close self)
  end.

(** A sextet whose alphabet byte is not the pad and is mapped back to it by
    [table_a2b_base64]. *)
Definition sextet_ok (n : N) : bool :=
  negb (Byte.eqb (table_b2a_base64 n) EQUALS)
  && (table_a2b_base64 (table_b2a_base64 n) =? n)%N
  && (n <? 64)%N.

(** Every equals sign of a quoted-printable stream is followed by three bytes
    that are not equals signs (or by the end of the stream): escapes are not
    adjacent. *)
Fixpoint equals_spaced (x : bytes) : bool :=
  match x with
  | [] => true
  | c :: rest =>
      (if Byte.eqb c EQUALS then negb (found (find (firstn 3 rest) EQUALS))
       else true)
      && equals_spaced rest
  end.

(** Every equals sign followed by CR is followed by CR LF: soft line breaks
    are complete. *)
Fixpoint soft_breaks_closed (x : bytes) : bool :=
  match x with
  | [] => true
  | c :: rest =>
      (if Byte.eqb c EQUALS then
         match rest with
         | c1 :: rest1 =>
             if Byte.eqb c1 CR then
               match rest1 with
               | c2 :: _ => Byte.eqb c2 LF
               | [] => false
               end
             else true
         | [] => true
         end
       else true)
      && soft_breaks_closed rest
  end.


(** Every byte value, for properties checked by enumeration. *)
Definition all_bytes : list byte :=
  map (fun n => byte_of_N (N.of_nat n)) (seq 0 256).

(** * Properties *)

#[local] Arguments Nat.modulo : simpl never.
#[local] Arguments Nat.div : simpl never.

(** ** Slices and sinks *)

Lemma slice_last_length (k : nat) (data : bytes) :
  length (slice_last k data) = Nat.min k (length data).
Proof. unfold slice_last. rewrite length_skipn. lia. Qed.

Lemma aligned_prefix_length (data : bytes) :
  length (slice_to (length data / 4 * 4) data) = length data / 4 * 4.
Proof.
  unfold slice_to. rewrite length_firstn.
  pose proof (Nat.Div0.mul_div_le (length data) 4). lia.
Qed.

Lemma remainder_is_suffix (data : bytes) :
  slice_last (length data mod 4) data = skipn (length data / 4 * 4) data.
Proof.
  unfold slice_last. f_equal.
  pose proof (Nat.div_mod_eq (length data) 4). lia.
Qed.

Lemma writes_of_app (l1 l2 : list sink_call) :
  writes_of (l1 ++ l2) = writes_of l1 ++ writes_of l2.
Proof.
  induction l1 as [|c l1 IH]; simpl; [reflexivity|].
  destruct c; simpl; rewrite IH; reflexivity.
Qed.

Lemma forwarded_write (d : bytes) (s : Sink) :
  forwarded (sink_record (SinkWrite d) s) = forwarded s ++ d.
Proof.
  unfold forwarded, sink_record. simpl.
  rewrite writes_of_app, concat_app. simpl. rewrite app_nil_r. reflexivity.
Qed.

Lemma forwarded_other (c : sink_call) (s : Sink) :
  (forall d, c <> SinkWrite d) ->
  forwarded (sink_record c s) = forwarded s.
Proof.
  intros Hc. unfold forwarded, sink_record. simpl.
  rewrite writes_of_app, concat_app.
  destruct c; simpl; [exfalso; eapply Hc; reflexivity | |];
    apply app_nil_r.
Qed.

Lemma cache_prefixed (cache data : bytes) :
  (if 0 <? length cache then cache ++ data else data) = cache ++ data.
Proof. destruct cache; reflexivity. Qed.

(** ** What one call of each [write] does *)

Lemma b64_buffer_split self data :
  b64_buffer self data = b64_prefix self data ++ b64_remainder self data.
Proof. unfold b64_prefix, b64_remainder, slice_to. symmetry. apply firstn_skipn. Qed.

Lemma b64_remainder_length self data :
  length (b64_remainder self data) = length (b64_buffer self data) mod 4.
Proof.
  unfold b64_remainder. rewrite length_skipn.
  pose proof (Nat.div_mod_eq (length (b64_buffer self data)) 4). lia.
Qed.

Lemma b64_write_unfold self data :
  Base64Decoder.write data self =
  match b64_prefix self data with
  | [] =>
      (Returns (length (b64_buffer self data)),
       Base64Decoder.mk (b64_remainder self data)
         (Base64Decoder.underlying self))
  | _ :: _ =>
      match b64decode (b64_prefix self data) with
      | Some decoded =>
          (Returns (length (b64_buffer self data)),
           Base64Decoder.mk (b64_remainder self data)
             (sink_record (SinkWrite decoded) (Base64Decoder.underlying self)))
      | None => (Raises Base64Decoder.bad_base64, self)
      end
  end.
Proof.
  unfold Base64Decoder.write, bind, get.
  rewrite cache_prefixed. fold (b64_buffer self data).
  fold (b64_prefix self data).
  assert (Hrem :
    (if 0 <? length (b64_buffer self data) mod 4
     then Base64Decoder.set_cache
            (slice_last (length (b64_buffer self data) mod 4)
               (b64_buffer self data))
     else Base64Decoder.set_cache []) =
    Base64Decoder.set_cache (b64_remainder self data)).
  { pose proof (b64_remainder_length self data) as Hlen.
    destruct (0 <? length (b64_buffer self data) mod 4) eqn:E.
    - rewrite remainder_is_suffix. reflexivity.
    - apply Nat.ltb_ge in E.
      destruct (b64_remainder self data) as [|c rest] eqn:Hrest;
        [reflexivity | exfalso].
      cbn [length] in Hlen. lia. }
  rewrite Hrem. clear Hrem.
  destruct (b64_prefix self data) as [|c val] eqn:Hval; simpl.
  - reflexivity.
  - unfold Base64Decoder.try_b64decode.
    destruct (b64decode (c :: val)); reflexivity.
Qed.

Lemma qp_write_unfold self data :
  QuotedPrintableDecoder.write data self =
  if qp_tail_has_equals self data then
    (Returns (length (qp_buffer self data)),
     QuotedPrintableDecoder.mk (slice_last 2 (qp_buffer self data))
       (qp_forward (slice_drop_last 2 (qp_buffer self data))
          (QuotedPrintableDecoder.underlying self)))
  else
    (Returns (length (qp_buffer self data)),
     QuotedPrintableDecoder.mk []
       (qp_forward (qp_buffer self data)
          (QuotedPrintableDecoder.underlying self))).
Proof.
  unfold QuotedPrintableDecoder.write, bind, get, qp_tail_has_equals.
  rewrite cache_prefixed. fold (qp_buffer self data).
  destruct (found (find (slice_last 2 (qp_buffer self data)) EQUALS)).
  - destruct (slice_drop_last 2 (qp_buffer self data)); reflexivity.
  - destruct (qp_buffer self data); reflexivity.
Qed.

Lemma find_some_in (data : bytes) (c : byte) :
  found (find data c) = true -> In c data.
Proof.
  induction data as [|x rest IH]; simpl; [discriminate|].
  destruct (Byte.eqb x c) eqn:E.
  - intros _. left. apply byte_dec_bl. exact E.
  - destruct (find rest c); [|discriminate]. intros _. right. apply IH. reflexivity.
Qed.

(** ** Return value, cache bound and error atomicity *)

(** C7: a successful [write] of either decoder returns the length of the
    previously cached bytes plus the length of the new bytes.  (The
    quoted-printable [write] never raises, so its return value is given
    outright.) *)
Theorem write_returns_combined_length :
  (forall self data n self',
     Base64Decoder.write data self = (Returns n, self') ->
     n = length (Base64Decoder.cache self) + length data) /\
  (forall self data,
     fst (QuotedPrintableDecoder.write data self) =
     Returns (length (QuotedPrintableDecoder.cache self) + length data)).
Proof.
  split.
  - intros self data n self' H. rewrite b64_write_unfold in H.
    unfold b64_buffer in H. rewrite length_app in H.
    destruct (b64_prefix self data); [congruence|].
    destruct (b64decode _); congruence.
  - intros self data. rewrite qp_write_unfold.
    unfold qp_buffer. rewrite length_app.
    destruct (qp_tail_has_equals self data); reflexivity.
Qed.

Lemma write_returns_combined_length_witness :
  Base64Decoder.write (b "vYmFy")
    (Base64Decoder.mk (b "Zm9") (new_sink false false)) =
  (Returns 8,
   Base64Decoder.mk []
     (sink_record (SinkWrite (b "foobar")) (new_sink false false))) /\
  8 = length (b "Zm9") + length (b "vYmFy").
Proof.
  split; [reflexivity|].
  apply (proj1 write_returns_combined_length
           (Base64Decoder.mk (b "Zm9") (new_sink false false)) (b "vYmFy") 8
           (Base64Decoder.mk []
              (sink_record (SinkWrite (b "foobar")) (new_sink false false)))).
  reflexivity.
Defined.

Lemma b64_after_bound self c :
  length (Base64Decoder.cache self) <= 3 ->
  length (Base64Decoder.cache (b64_after self c)) <= 3.
Proof.
  intros Hself. destruct c as [data| |]; simpl.
  - rewrite b64_write_unfold.
    pose proof (b64_remainder_length self data) as Hlen.
    pose proof (Nat.mod_upper_bound (length (b64_buffer self data)) 4).
    destruct (b64_prefix self data); [simpl; lia|].
    destruct (b64decode _); simpl; lia.
  - unfold Base64Decoder.finalize, bind, get, raise, ret.
    destruct (0 <? length (Base64Decoder.cache self)); simpl; [exact Hself|].
    destruct (has_finalize (Base64Decoder.underlying self)); exact Hself.
  - unfold Base64Decoder.close.
    destruct (has_close (Base64Decoder.underlying self)); exact Hself.
Qed.

Lemma qp_write_bound self data :
  length (QuotedPrintableDecoder.cache
            (snd (QuotedPrintableDecoder.write data self))) <= 2.
Proof.
  rewrite qp_write_unfold.
  destruct (qp_tail_has_equals self data); simpl; [|lia].
  rewrite slice_last_length. lia.
Qed.

Lemma qp_after_bound self c :
  length (QuotedPrintableDecoder.cache self) <= 2 ->
  length (QuotedPrintableDecoder.cache (qp_after self c)) <= 2.
Proof.
  intros Hself. destruct c as [data| |]; simpl.
  - apply qp_write_bound.
  - unfold QuotedPrintableDecoder.finalize, bind, get, ret.
    destruct (0 <? length (QuotedPrintableDecoder.cache self)); simpl.
    + destruct (has_finalize (QuotedPrintableDecoder.underlying self));
        simpl; lia.
    + destruct (has_finalize (QuotedPrintableDecoder.underlying self));
        exact Hself.
  - unfold QuotedPrintableDecoder.close.
    destruct (has_close (QuotedPrintableDecoder.underlying self)); exact Hself.
Qed.

(** C4: after every successful Base64 [write] the cache holds at most 3
    bytes and after every quoted-printable [write] at most 2, whatever the
    state before; and the bounds hold after any sequence of calls on a fresh
    decoder, raised ones included. *)
Theorem cache_bound :
  (forall self data n self',
     Base64Decoder.write data self = (Returns n, self') ->
     0 <= length (Base64Decoder.cache self') <= 3) /\
  (forall self data,
     0 <= length (QuotedPrintableDecoder.cache
                    (snd (QuotedPrintableDecoder.write data self))) <= 2) /\
  (forall sink trace,
     length (Base64Decoder.cache
               (fold_left b64_after trace (Base64Decoder.init sink))) <= 3) /\
  (forall sink trace,
     length (QuotedPrintableDecoder.cache
               (fold_left qp_after trace (QuotedPrintableDecoder.init sink)))
     <= 2).
Proof.
  repeat split; try lia.
  - rename H into Hw. rewrite b64_write_unfold in Hw.
    pose proof (b64_remainder_length self data) as Hlen.
    pose proof (Nat.mod_upper_bound (length (b64_buffer self data)) 4).
    destruct (b64_prefix self data).
    + inversion Hw; subst; simpl; lia.
    + destruct (b64decode _); inversion Hw; subst; simpl; lia.
  - apply qp_write_bound.
  - intros sink trace.
    assert (Hgen : forall self, length (Base64Decoder.cache self) <= 3 ->
              length (Base64Decoder.cache (fold_left b64_after trace self)) <= 3).
    { induction trace as [|c trace IH]; intros self Hself; simpl; [exact Hself|].
      apply IH, b64_after_bound, Hself. }
    apply Hgen. simpl. lia.
  - intros sink trace.
    assert (Hgen : forall self,
              length (QuotedPrintableDecoder.cache self) <= 2 ->
              length (QuotedPrintableDecoder.cache
                        (fold_left qp_after trace self)) <= 2).
    { induction trace as [|c trace IH]; intros self Hself; simpl; [exact Hself|].
      apply IH, qp_after_bound, Hself. }
    apply Hgen. simpl. lia.
Qed.

Lemma cache_bound_witness :
  0 <= length (b "Zm9") <= 3.
Proof.
  apply (proj1 cache_bound (Base64Decoder.init (new_sink false false))
           (b "Zm9") 3 (Base64Decoder.mk (b "Zm9") (new_sink false false))).
  reflexivity.
Defined.

(** C6: a Base64 [write] that raises [DecodeError] has forwarded nothing to
    the sink and has left the cache as it was before the call. *)
Theorem base64_write_error_atomic :
  forall self data e self',
    Base64Decoder.write data self = (Raises e, self') ->
    Base64Decoder.underlying self' = Base64Decoder.underlying self /\
    Base64Decoder.cache self' = Base64Decoder.cache self.
Proof.
  intros self data e self' H. rewrite b64_write_unfold in H.
  destruct (b64_prefix self data); [discriminate|].
  destruct (b64decode _); [discriminate|].
  inversion H; subst. split; reflexivity.
Qed.

Lemma base64_write_error_atomic_witness :
  Base64Decoder.underlying
    (snd (Base64Decoder.write (b "vYmF!")
            (Base64Decoder.mk (b "Zm9") (new_sink true true)))) =
  new_sink true true /\
  Base64Decoder.cache
    (snd (Base64Decoder.write (b "vYmF!")
            (Base64Decoder.mk (b "Zm9") (new_sink true true)))) =
  b "Zm9".
Proof.
  apply (base64_write_error_atomic
           (Base64Decoder.mk (b "Zm9") (new_sink true true)) (b "vYmF!")
           Base64Decoder.bad_base64).
  reflexivity.
Defined.

(** ** Finalize *)

Lemma b64_finalize_unfold self :
  Base64Decoder.finalize self =
  match Base64Decoder.cache self with
  | [] =>
      (Returns tt,
       if has_finalize (Base64Decoder.underlying self)
       then Base64Decoder.mk []
              (sink_record SinkFinalize (Base64Decoder.underlying self))
       else self)
  | _ :: _ =>
      (Raises (Base64Decoder.incomplete_base64
                 (length (Base64Decoder.cache self))), self)
  end.
Proof.
  unfold Base64Decoder.finalize, bind, get, raise, ret.
  destruct self as [cache sink]; simpl.
  destruct cache; simpl; [|reflexivity].
  destruct (has_finalize sink); reflexivity.
Qed.

Lemma b64_write_all_cache_length chunks :
  forall self self',
    length (Base64Decoder.cache self) < 4 ->
    Base64Decoder.write_all chunks self = (Returns tt, self') ->
    length (Base64Decoder.cache self') =
    (length (Base64Decoder.cache self) + length (concat chunks)) mod 4.
Proof.
  induction chunks as [|chunk more IH]; intros self self' Hself Hrun.
  - simpl in Hrun. unfold ret in Hrun. inversion Hrun; subst.
    simpl. rewrite Nat.add_0_r. symmetry. apply Nat.mod_small. exact Hself.
  - cbn [Base64Decoder.write_all] in Hrun. unfold bind in Hrun.
    destruct (Base64Decoder.write chunk self) as [[n|e] mid] eqn:Hw;
      [|discriminate].
    assert (Hmid : length (Base64Decoder.cache mid) =
                   (length (Base64Decoder.cache self) + length chunk) mod 4).
    { rewrite b64_write_unfold in Hw.
      pose proof (b64_remainder_length self chunk) as Hlen.
      assert (Hbuf : length (b64_buffer self chunk) =
                     length (Base64Decoder.cache self) + length chunk)
        by (unfold b64_buffer; apply length_app).
      rewrite Hbuf in Hlen.
      destruct (b64_prefix self chunk).
      - inversion Hw; subst. exact Hlen.
      - destruct (b64decode _); inversion Hw; subst. exact Hlen. }
    rewrite (IH mid self'); [|rewrite Hmid; apply Nat.mod_upper_bound; lia|exact Hrun].
    rewrite Hmid. cbn [concat]. rewrite length_app.
    rewrite Nat.Div0.add_mod_idemp_l. f_equal. lia.
Qed.

(** C5: [Base64Decoder.finalize()] raises [DecodeError] exactly when the
    cache is not empty, and then changes nothing; after successful writes on
    a fresh decoder that is exactly when the total input length is not a
    multiple of 4; with an empty cache it returns, and calls the sink's
    [finalize()] exactly when the sink has one. *)
Theorem base64_finalize_strictness :
  (forall self,
     raised (fst (Base64Decoder.finalize self)) = true <->
     Base64Decoder.cache self <> []) /\
  (forall self,
     Base64Decoder.cache self <> [] ->
     Base64Decoder.finalize self =
     (Raises (Base64Decoder.incomplete_base64
                (length (Base64Decoder.cache self))), self)) /\
  (forall sink chunks self',
     Base64Decoder.write_all chunks (Base64Decoder.init sink)
     = (Returns tt, self') ->
     (Base64Decoder.cache self' <> [] <-> length (concat chunks) mod 4 <> 0)) /\
  (forall self,
     Base64Decoder.cache self = [] ->
     Base64Decoder.finalize self =
     (Returns tt,
      Base64Decoder.mk []
        (if has_finalize (Base64Decoder.underlying self)
         then sink_record SinkFinalize (Base64Decoder.underlying self)
         else Base64Decoder.underlying self))).
Proof.
  repeat split.
  - rewrite b64_finalize_unfold.
    destruct (Base64Decoder.cache self); simpl; congruence.
  - rewrite b64_finalize_unfold.
    destruct (Base64Decoder.cache self); simpl; congruence.
  - intros self Hne. rewrite b64_finalize_unfold.
    destruct (Base64Decoder.cache self); [congruence | reflexivity].
  - intros Hne Hmod.
    apply b64_write_all_cache_length in H; [|simpl; lia].
    simpl in H. rewrite Hmod in H.
    destruct (Base64Decoder.cache self'); [congruence | discriminate].
  - intros Hmod Hnil.
    apply b64_write_all_cache_length in H; [|simpl; lia].
    rewrite Hnil in H. simpl in H. congruence.
  - intros self Hnil. rewrite b64_finalize_unfold.
    destruct self as [cache sink]; simpl in *. subst cache.
    destruct (has_finalize sink); reflexivity.
Qed.

Lemma base64_finalize_strictness_witness :
  Base64Decoder.finalize (Base64Decoder.mk [] (new_sink false true)) =
  (Returns tt,
   Base64Decoder.mk [] (sink_record SinkFinalize (new_sink false true))) /\
  Base64Decoder.finalize (Base64Decoder.mk (b "Zm9") (new_sink false true)) =
  (Raises (Base64Decoder.incomplete_base64 3),
   Base64Decoder.mk (b "Zm9") (new_sink false true)) /\
  (b "YmF" <> [] <-> length (concat [b "Zm9v"; b "YmF"]) mod 4 <> 0).
Proof.
  split; [|split].
  - apply (proj2 (proj2 (proj2 base64_finalize_strictness))
             (Base64Decoder.mk [] (new_sink false true))).
    reflexivity.
  - apply (proj1 (proj2 base64_finalize_strictness)
             (Base64Decoder.mk (b "Zm9") (new_sink false true))).
    discriminate.
  - apply (proj1 (proj2 (proj2 base64_finalize_strictness))
             (new_sink false true) [b "Zm9v"; b "YmF"]
             (Base64Decoder.mk (b "YmF")
                (sink_record (SinkWrite (b "foo")) (new_sink false true)))).
    reflexivity.
Defined.

(** ** Concrete scenarios *)

(** C8 (as the code behaves): on a fresh decoder, [write(b"Zm9")] forwards
    nothing, returns 3 and leaves the cache [b"Zm9"]; the following
    [write(b"vYmFy")] forwards [b"foobar"] and returns 8, the three cached
    bytes being counted with the five new ones. *)
Theorem base64_split_scenario :
  forall sink,
    Base64Decoder.write (b "Zm9") (Base64Decoder.init sink) =
    (Returns 3, Base64Decoder.mk (b "Zm9") sink) /\
    Base64Decoder.write (b "vYmFy") (Base64Decoder.mk (b "Zm9") sink) =
    (Returns 8,
     Base64Decoder.mk [] (sink_record (SinkWrite (b "foobar")) sink)).
Proof. intros sink. split; reflexivity. Qed.

(** C8 as stated fails: the second call does not return 5. *)
Lemma base64_split_scenario_second_return :
  ~ (exists self',
       Base64Decoder.write (b "vYmFy")
         (snd (Base64Decoder.write (b "Zm9")
                 (Base64Decoder.init (new_sink false false)))) =
       (Returns 5, self')).
Proof. intros [self' H]. vm_compute in H. discriminate. Qed.

(** C9: on a fresh decoder, [write(b"A=\r\n")], [write(b"B")] and
    [finalize()] make the sink receive [b"A"] and then [b"B"]; the soft line
    break forwards no byte, so no equals sign, CR or LF reaches the sink. *)
Theorem qp_soft_line_break :
  forall hc hf,
  exists self',
    QuotedPrintableDecoder.decode_stream
      [b "A=" ++ [CR; LF]; b "B"]
      (QuotedPrintableDecoder.init (new_sink hc hf)) = (Returns tt, self') /\
    QuotedPrintableDecoder.cache self' = [] /\
    writes_of (calls (QuotedPrintableDecoder.underlying self')) =
      [b "A"; b "B"] /\
    forwarded (QuotedPrintableDecoder.underlying self') = b "AB" /\
    ~ In EQUALS (forwarded (QuotedPrintableDecoder.underlying self')) /\
    ~ In CR (forwarded (QuotedPrintableDecoder.underlying self')) /\
    ~ In LF (forwarded (QuotedPrintableDecoder.underlying self')).
Proof.
  intros hc hf.
  exists (snd (QuotedPrintableDecoder.decode_stream
                 [b "A=" ++ [CR; LF]; b "B"]
                 (QuotedPrintableDecoder.init (new_sink hc hf)))).
  destruct hc, hf; vm_compute; repeat split;
    intros H; repeat (destruct H as [H|H]; [discriminate|]); exact H.
Qed.

(** ** The quoted-printable cache *)

Lemma qp_forward_forwarded enc s :
  forwarded (qp_forward enc s) = forwarded s ++ a2b_qp enc.
Proof.
  destruct enc as [|c enc]; simpl.
  - symmetry. apply app_nil_r.
  - apply forwarded_write.
Qed.

(** C10: after every quoted-printable [write] the cache is empty or holds an
    equals sign; and when the last two bytes of the combined buffer hold no
    equals sign, the whole buffer is decoded and forwarded (one sink [write],
    none for an empty buffer) and the cache becomes empty. *)
Theorem qp_cache_shape :
  (forall self data,
     QuotedPrintableDecoder.cache
       (snd (QuotedPrintableDecoder.write data self)) = [] \/
     In EQUALS (QuotedPrintableDecoder.cache
                  (snd (QuotedPrintableDecoder.write data self)))) /\
  (forall self data,
     find (slice_last 2 (QuotedPrintableDecoder.cache self ++ data)) EQUALS
     = None ->
     QuotedPrintableDecoder.write data self =
     (Returns (length (QuotedPrintableDecoder.cache self ++ data)),
      QuotedPrintableDecoder.mk []
        (qp_forward (QuotedPrintableDecoder.cache self ++ data)
           (QuotedPrintableDecoder.underlying self))) /\
     forwarded (QuotedPrintableDecoder.underlying
                  (snd (QuotedPrintableDecoder.write data self))) =
     forwarded (QuotedPrintableDecoder.underlying self)
     ++ a2b_qp (QuotedPrintableDecoder.cache self ++ data)).
Proof.
  split.
  - intros self data. rewrite qp_write_unfold.
    destruct (qp_tail_has_equals self data) eqn:E; simpl.
    + right. apply find_some_in. exact E.
    + left. reflexivity.
  - intros self data Hnone. rewrite qp_write_unfold.
    unfold qp_tail_has_equals, qp_buffer. rewrite Hnone. simpl.
    split; [reflexivity | apply qp_forward_forwarded].
Qed.

Lemma qp_cache_shape_witness :
  QuotedPrintableDecoder.write (b "8i")
    (QuotedPrintableDecoder.mk (b "=4") (new_sink false false)) =
  (Returns 4,
   QuotedPrintableDecoder.mk []
     (sink_record (SinkWrite (b "Hi")) (new_sink false false))) /\
  forwarded
    (QuotedPrintableDecoder.underlying
       (snd (QuotedPrintableDecoder.write (b "8i")
               (QuotedPrintableDecoder.mk (b "=4") (new_sink false false)))))
  = [] ++ a2b_qp (b "=4" ++ b "8i").
Proof.
  apply (proj2 qp_cache_shape
           (QuotedPrintableDecoder.mk (b "=4") (new_sink false false))
           (b "8i")).
  reflexivity.
Defined.

(** ** Which Base64 writes fail *)

Lemma is_alphabet_table c :
  Byte.eqb c EQUALS = false ->
  is_alphabet c = negb (64 <=? table_a2b_base64 c)%N.
Proof.
  intros E. unfold is_alphabet. rewrite E. simpl.
  rewrite N.ltb_antisym. reflexivity.
Qed.

Lemma not_in_cons_eqb (c x : byte) (l : bytes) :
  ~ In c (x :: l) -> Byte.eqb x c = false /\ ~ In c l.
Proof.
  intros H. split.
  - destruct (Byte.eqb x c) eqn:E; [|reflexivity].
    exfalso. apply H. left. apply byte_dec_bl. exact E.
  - intros Hin. apply H. right. exact Hin.
Qed.

(** Without a pad in the input, the decoding loop fails exactly when the
    alphabet bytes do not fill their last quad. *)
Lemma a2b_base64_loop_no_pad data :
  forall quad_pos leftchar pads bin_data,
    ~ In EQUALS data -> quad_pos < 4 ->
    (a2b_base64_loop data quad_pos leftchar pads bin_data = None <->
     (quad_pos + count_alphabet data) mod 4 <> 0).
Proof.
  induction data as [|c rest IH]; intros q l p out Hpad Hq.
  - cbn [a2b_base64_loop]. unfold count_alphabet. cbn [filter length].
    rewrite Nat.add_0_r, Nat.mod_small by exact Hq.
    destruct q; simpl; split; congruence.
  - apply not_in_cons_eqb in Hpad. destruct Hpad as [Ec Hrest].
    cbn [a2b_base64_loop]. rewrite Ec.
    unfold count_alphabet. cbn [filter]. rewrite (is_alphabet_table c Ec).
    fold (count_alphabet rest) in *.
    destruct (64 <=? table_a2b_base64 c)%N; cbn [negb].
    + fold (count_alphabet rest). apply IH; assumption.
    + cbn [length]. fold (count_alphabet rest).
      destruct q as [|[|[|[|q]]]]; [| | | |lia];
        rewrite IH by (assumption || lia);
        match goal with
        | |- (?a + ?n) mod 4 <> 0 <-> (?c + S ?n) mod 4 <> 0 =>
            replace (c + S n) with (S c + n) by lia
        end; cbn [Nat.add]; try reflexivity.
      replace (S (S (S (S (count_alphabet rest)))))
        with (count_alphabet rest + 1 * 4) by lia.
      rewrite Nat.Div0.mod_add. reflexivity.
Qed.

Lemma count_alphabet_split data :
  count_alphabet data + count_non_alphabet data = length data.
Proof.
  unfold count_alphabet, count_non_alphabet.
  induction data as [|c rest IH]; cbn [filter length]; [reflexivity|].
  destruct (is_alphabet c); cbn [negb length]; lia.
Qed.

Lemma b64_prefix_length self data :
  length (b64_prefix self data) = length (b64_buffer self data) / 4 * 4.
Proof. apply aligned_prefix_length. Qed.

(** C2 (as the code behaves): a Base64 [write] fails with [DecodeError]
    exactly when the lenient [base64.b64decode] rejects its non-empty aligned
    prefix; it does so whenever the prefix has no pad and a number of
    non-alphabet bytes that is not a multiple of 4 (those bytes are dropped
    and the rest leaves a quad incomplete), as in [b"Zm9vYmF!"]. *)
Theorem base64_write_fails_when_rejected :
  forall self data,
    (raised (fst (Base64Decoder.write data self)) = true <->
     b64_prefix self data <> [] /\ b64decode (b64_prefix self data) = None) /\
    (~ In EQUALS (b64_prefix self data) ->
     count_non_alphabet (b64_prefix self data) mod 4 <> 0 ->
     Base64Decoder.write data self = (Raises Base64Decoder.bad_base64, self)).
Proof.
  intros self data. split.
  - rewrite b64_write_unfold.
    destruct (b64_prefix self data) as [|c val] eqn:Hval; simpl.
    + split; [discriminate | intros [H _]; congruence].
    + destruct (b64decode (c :: val)); simpl; split;
        try discriminate; try (intros [_ H]; discriminate).
      * intros _. split; [discriminate | reflexivity].
      * reflexivity.
  - intros Hpad Hcount. rewrite b64_write_unfold.
    assert (Hnone : b64decode (b64_prefix self data) = None).
    { unfold b64decode, a2b_base64.
      apply a2b_base64_loop_no_pad; [exact Hpad | lia |].
      cbn [Nat.add]. intros Hzero. apply Hcount.
      pose proof (count_alphabet_split (b64_prefix self data)) as Hsplit.
      rewrite b64_prefix_length in Hsplit.
      assert (Hsum : (count_alphabet (b64_prefix self data)
                      + count_non_alphabet (b64_prefix self data)) mod 4 = 0).
      { rewrite Hsplit. apply Nat.Div0.mod_mul. }
      rewrite <- Nat.Div0.add_mod_idemp_l, Hzero in Hsum. cbn [Nat.add] in Hsum.
      exact Hsum. }
    rewrite Hnone.
    destruct (b64_prefix self data); [discriminate Hnone | reflexivity].
Qed.

Lemma base64_write_fails_when_rejected_witness :
  Base64Decoder.write (b "Zm9vYmF!")
    (Base64Decoder.init (new_sink false false)) =
  (Raises Base64Decoder.bad_base64, Base64Decoder.init (new_sink false false)).
Proof.
  apply (proj2 (base64_write_fails_when_rejected
                  (Base64Decoder.init (new_sink false false))
                  (b "Zm9vYmF!"))).
  - vm_compute. intros H.
    repeat (destruct H as [H|H]; [discriminate|]). exact H.
  - vm_compute. discriminate.
Defined.

(** C2 as stated fails: [b"Zm9v!!!!"] has bytes outside the alphabet in its
    aligned prefix, yet the write returns (and forwards [b"foo"]). *)
Lemma base64_invalid_bytes_accepted :
  ~ (forall self data,
       (exists c, In c (b64_prefix self data) /\ c <> EQUALS /\
                  is_alphabet c = false) ->
       raised (fst (Base64Decoder.write data self)) = true).
Proof.
  intros H.
  specialize (H (Base64Decoder.init (new_sink false false)) (b "Zm9v!!!!")).
  assert (Hex : exists c,
             In c (b64_prefix (Base64Decoder.init (new_sink false false))
                     (b "Zm9v!!!!")) /\ c <> EQUALS /\ is_alphabet c = false).
  { exists "!"%byte. split; [|split].
    - vm_compute. tauto.
    - discriminate.
    - reflexivity. }
  apply H in Hex. vm_compute in Hex. discriminate.
Qed.

(** ** Decoding an encoded quad *)

Lemma all_bytes_complete (c : byte) : In c all_bytes.
Proof.
  unfold all_bytes. apply in_map_iff. exists (Byte.to_nat c). split.
  - unfold byte_of_N. rewrite <- Byte.to_N_via_nat.
    rewrite N.mod_small by (pose proof (Byte.to_N_bounded c); lia).
    rewrite Byte.of_to_N. reflexivity.
  - apply in_seq. pose proof (Byte.to_nat_bounded c). lia.
Qed.

Lemma forall_byte (P : byte -> bool) :
  forallb P all_bytes = true -> forall c, P c = true.
Proof.
  intros H c. rewrite forallb_forall in H. apply H, all_bytes_complete.
Qed.

Lemma forall_byte2 (P : byte -> byte -> bool) :
  forallb (fun x => forallb (P x) all_bytes) all_bytes = true ->
  forall x y, P x y = true.
Proof.
  intros H x y.
  apply (forall_byte (P x)). apply (forall_byte _ H x).
Qed.

Ltac by_enumeration1 P :=
  apply (forall_byte P); vm_compute; reflexivity.
Ltac by_enumeration2 P :=
  apply (forall_byte2 P); vm_compute; reflexivity.

Lemma sextet0_ok x : sextet_ok (sextet0 x) = true.
Proof. revert x. by_enumeration1 (fun x => sextet_ok (sextet0 x)). Qed.

Lemma sextet1_ok x y : sextet_ok (sextet1 x y) = true.
Proof. revert x y. by_enumeration2 (fun x y => sextet_ok (sextet1 x y)). Qed.

Lemma sextet2_ok y z : sextet_ok (sextet2 y z) = true.
Proof. revert y z. by_enumeration2 (fun y z => sextet_ok (sextet2 y z)). Qed.

Lemma sextet3_ok z : sextet_ok (sextet3 z) = true.
Proof. revert z. by_enumeration1 (fun z => sextet_ok (sextet3 z)). Qed.

Lemma tail1_ok x : sextet_ok (N.shiftl (N.land (Byte.to_N x) 3) 4) = true.
Proof.
  revert x.
  by_enumeration1 (fun x => sextet_ok (N.shiftl (N.land (Byte.to_N x) 3) 4)).
Qed.

Lemma tail2_ok y : sextet_ok (N.shiftl (N.land (Byte.to_N y) 15) 2) = true.
Proof.
  revert y.
  by_enumeration1 (fun y => sextet_ok (N.shiftl (N.land (Byte.to_N y) 15) 2)).
Qed.

Lemma first_byte x y :
  byte_of_N (N.lor (N.shiftl (sextet0 x) 2) (N.shiftr (sextet1 x y) 4)) = x.
Proof.
  apply byte_dec_bl. revert x y.
  by_enumeration2 (fun x y =>
    Byte.eqb
      (byte_of_N (N.lor (N.shiftl (sextet0 x) 2) (N.shiftr (sextet1 x y) 4)))
      x).
Qed.

Lemma first_byte_tail x :
  byte_of_N (N.lor (N.shiftl (sextet0 x) 2)
                   (N.shiftr (N.shiftl (N.land (Byte.to_N x) 3) 4) 4)) = x.
Proof.
  apply byte_dec_bl. revert x.
  by_enumeration1 (fun x =>
    Byte.eqb
      (byte_of_N (N.lor (N.shiftl (sextet0 x) 2)
                        (N.shiftr (N.shiftl (N.land (Byte.to_N x) 3) 4) 4)))
      x).
Qed.

Lemma left_after_second x y :
  N.land (sextet1 x y) 15 = N.shiftr (Byte.to_N y) 4.
Proof.
  apply N.eqb_eq. revert x y.
  by_enumeration2 (fun x y =>
    (N.land (sextet1 x y) 15 =? N.shiftr (Byte.to_N y) 4)%N).
Qed.

Lemma second_byte y z :
  byte_of_N (N.lor (N.shiftl (N.shiftr (Byte.to_N y) 4) 4)
                   (N.shiftr (sextet2 y z) 2)) = y.
Proof.
  apply byte_dec_bl. revert y z.
  by_enumeration2 (fun y z =>
    Byte.eqb
      (byte_of_N (N.lor (N.shiftl (N.shiftr (Byte.to_N y) 4) 4)
                        (N.shiftr (sextet2 y z) 2)))
      y).
Qed.

Lemma second_byte_tail y :
  byte_of_N (N.lor (N.shiftl (N.shiftr (Byte.to_N y) 4) 4)
                   (N.shiftr (N.shiftl (N.land (Byte.to_N y) 15) 2) 2)) = y.
Proof.
  apply byte_dec_bl. revert y.
  by_enumeration1 (fun y =>
    Byte.eqb
      (byte_of_N (N.lor (N.shiftl (N.shiftr (Byte.to_N y) 4) 4)
                    (N.shiftr (N.shiftl (N.land (Byte.to_N y) 15) 2) 2)))
      y).
Qed.

Lemma left_after_third y z :
  N.land (sextet2 y z) 3 = N.shiftr (Byte.to_N z) 6.
Proof.
  apply N.eqb_eq. revert y z.
  by_enumeration2 (fun y z =>
    (N.land (sextet2 y z) 3 =? N.shiftr (Byte.to_N z) 6)%N).
Qed.

Lemma third_byte z :
  byte_of_N (N.lor (N.shiftl (N.shiftr (Byte.to_N z) 6) 6) (sextet3 z)) = z.
Proof.
  apply byte_dec_bl. revert z.
  by_enumeration1 (fun z =>
    Byte.eqb
      (byte_of_N (N.lor (N.shiftl (N.shiftr (Byte.to_N z) 6) 6) (sextet3 z)))
      z).
Qed.

(** One turn of the decoding loop on the alphabet byte of a sextet. *)
Lemma a2b_base64_loop_sextet n rest quad_pos leftchar pads bin_data :
  sextet_ok n = true ->
  a2b_base64_loop (table_b2a_base64 n :: rest) quad_pos leftchar pads bin_data =
  match quad_pos with
  | 0 => a2b_base64_loop rest 1 n 0 bin_data
  | 1 =>
      a2b_base64_loop rest 2 (N.land n 15) 0
        (bin_data ++ [byte_of_N (N.lor (N.shiftl leftchar 2) (N.shiftr n 4))])
  | 2 =>
      a2b_base64_loop rest 3 (N.land n 3) 0
        (bin_data ++ [byte_of_N (N.lor (N.shiftl leftchar 4) (N.shiftr n 2))])
  | _ =>
      a2b_base64_loop rest 0 0 0
        (bin_data ++ [byte_of_N (N.lor (N.shiftl leftchar 6) n)])
  end.
Proof.
  unfold sextet_ok. intros Hok.
  apply andb_prop in Hok. destruct Hok as [Hok Hlt].
  apply andb_prop in Hok. destruct Hok as [Hpad Htable].
  apply negb_true_iff in Hpad. apply N.eqb_eq in Htable.
  apply N.ltb_lt in Hlt.
  cbn [a2b_base64_loop]. rewrite Hpad, Htable.
  replace (64 <=? n)%N with false by (symmetry; apply N.leb_gt; exact Hlt).
  reflexivity.
Qed.

Lemma a2b_base64_loop_quad x y z rest leftchar pads bin_data :
  a2b_base64_loop
    (table_b2a_base64 (sextet0 x) :: table_b2a_base64 (sextet1 x y)
     :: table_b2a_base64 (sextet2 y z) :: table_b2a_base64 (sextet3 z)
     :: rest) 0 leftchar pads bin_data =
  a2b_base64_loop rest 0 0 0 (bin_data ++ [x; y; z]).
Proof.
  rewrite (a2b_base64_loop_sextet _ _ 0) by apply sextet0_ok.
  rewrite (a2b_base64_loop_sextet _ _ 1) by apply sextet1_ok.
  rewrite (a2b_base64_loop_sextet _ _ 2) by apply sextet2_ok.
  rewrite (a2b_base64_loop_sextet _ _ 3) by apply sextet3_ok.
  rewrite first_byte, left_after_second, second_byte,
    left_after_third, third_byte.
  rewrite <- !app_assoc. reflexivity.
Qed.

Lemma a2b_base64_loop_tail2 x y leftchar pads bin_data :
  a2b_base64_loop (b64encode [x; y]) 0 leftchar pads bin_data =
  Some (bin_data ++ [x; y]).
Proof.
  cbn [b64encode].
  rewrite (a2b_base64_loop_sextet _ _ 0) by apply sextet0_ok.
  rewrite (a2b_base64_loop_sextet _ _ 1) by apply sextet1_ok.
  rewrite (a2b_base64_loop_sextet _ _ 2) by apply tail2_ok.
  rewrite first_byte, left_after_second, second_byte_tail.
  rewrite <- !app_assoc. reflexivity.
Qed.

Lemma a2b_base64_loop_tail1 x leftchar pads bin_data :
  a2b_base64_loop (b64encode [x]) 0 leftchar pads bin_data =
  Some (bin_data ++ [x]).
Proof.
  cbn [b64encode].
  rewrite (a2b_base64_loop_sextet _ _ 0) by apply sextet0_ok.
  rewrite (a2b_base64_loop_sextet _ _ 1) by apply tail1_ok.
  rewrite first_byte_tail. reflexivity.
Qed.

(** Induction on byte strings three bytes at a time. *)
Lemma bytes_ind3 (P : bytes -> Prop) :
  P [] -> (forall x, P [x]) -> (forall x y, P [x; y]) ->
  (forall x y z more, P more -> P (x :: y :: z :: more)) ->
  forall s, P s.
Proof.
  intros H0 H1 H2 H3 s.
  assert (H : P s /\ (forall x, P (x :: s)) /\ (forall x y, P (x :: y :: s))).
  { induction s as [|c s [IHa [IHb IHc]]].
    - repeat split; auto.
    - repeat split; auto. }
  apply H.
Qed.

Lemma b64encode_cons3 x y z more :
  b64encode (x :: y :: z :: more) = b64encode [x; y; z] ++ b64encode more.
Proof. reflexivity. Qed.

(** [b64decode] undoes [b64encode]. *)
Lemma a2b_base64_loop_encoded s :
  forall leftchar pads bin_data,
    a2b_base64_loop (b64encode s) 0 leftchar pads bin_data =
    Some (bin_data ++ s).
Proof.
  induction s as [|x|x y|x y z more IH] using bytes_ind3;
    intros leftchar pads bin_data.
  - cbn. rewrite app_nil_r. reflexivity.
  - apply a2b_base64_loop_tail1.
  - apply a2b_base64_loop_tail2.
  - rewrite b64encode_cons3. cbn [b64encode app].
    rewrite a2b_base64_loop_quad, IH, <- app_assoc. reflexivity.
Qed.

Lemma b64decode_b64encode s : b64decode (b64encode s) = Some s.
Proof. apply (a2b_base64_loop_encoded s 0%N 0 []). Qed.

Lemma b64encode_nil_inv s : b64encode s = [] -> s = [].
Proof. destruct s as [|x [|y [|z more]]]; cbn; congruence. Qed.

Lemma b64encode_length s : length (b64encode s) mod 4 = 0.
Proof.
  induction s as [|x|x y|x y z more IH] using bytes_ind3; try reflexivity.
  rewrite b64encode_cons3, length_app.
  rewrite <- Nat.Div0.add_mod_idemp_r, IH. reflexivity.
Qed.

(** A cut of an encoded stream at a multiple of 4 is a cut of the plain
    bytes: both sides are encodings. *)
Lemma b64encode_split s :
  forall front back,
    b64encode s = front ++ back -> length front mod 4 = 0 ->
    exists s1 s2,
      s = s1 ++ s2 /\ front = b64encode s1 /\ back = b64encode s2.
Proof.
  induction s as [|x|x y|x y z more IH] using bytes_ind3;
    intros front back Hcut Hlen.
  - symmetry in Hcut. apply app_eq_nil in Hcut. destruct Hcut; subst.
    exists [], []. repeat split.
  - destruct front as [|c0 [|c1 [|c2 [|c3 front]]]];
      try (vm_compute in Hlen; discriminate).
    + exists [], [x]. repeat split. exact (eq_sym Hcut).
    + cbn in Hcut. inversion Hcut as [[E0 E1 E2 E3 Erest]].
      symmetry in Erest. apply app_eq_nil in Erest. destruct Erest; subst.
      exists [x], []. repeat split.
  - destruct front as [|c0 [|c1 [|c2 [|c3 front]]]];
      try (vm_compute in Hlen; discriminate).
    + exists [], [x; y]. repeat split. exact (eq_sym Hcut).
    + cbn in Hcut. inversion Hcut as [[E0 E1 E2 E3 Erest]].
      symmetry in Erest. apply app_eq_nil in Erest. destruct Erest; subst.
      exists [x; y], []. repeat split.
  - destruct front as [|c0 [|c1 [|c2 [|c3 front]]]];
      try (vm_compute in Hlen; discriminate).
    + exists [], (x :: y :: z :: more). repeat split. exact (eq_sym Hcut).
    + rewrite b64encode_cons3 in Hcut. cbn [b64encode app] in Hcut.
      inversion Hcut as [[E0 E1 E2 E3 Erest]].
      destruct (IH front back Erest) as (s1 & s2 & Hs & Hfront & Hback).
      { cbn [length] in Hlen.
        replace (S (S (S (S (length front))))) with (length front + 1 * 4)
          in Hlen by lia.
        rewrite Nat.Div0.mod_add in Hlen. exact Hlen. }
      exists (x :: y :: z :: s1), s2. subst. repeat split.
Qed.

(** ** Streams of several writes *)

(** The invariant of a Base64 decoder fed an encoded stream: the cache and
    the chunks still to come are the encoding of the bytes still to be
    forwarded. *)
Lemma b64_write_all_encoded chunks :
  forall self s,
    length (Base64Decoder.cache self) < 4 ->
    Base64Decoder.cache self ++ concat chunks = b64encode s ->
    exists self',
      Base64Decoder.write_all chunks self = (Returns tt, self') /\
      Base64Decoder.cache self' = [] /\
      forwarded (Base64Decoder.underlying self') =
      forwarded (Base64Decoder.underlying self) ++ s.
Proof.
  induction chunks as [|chunk more IH]; intros self s Hcache Hstream.
  - cbn [concat] in Hstream. rewrite app_nil_r in Hstream.
    assert (Hnil : Base64Decoder.cache self = []).
    { pose proof (b64encode_length s) as Hlen. rewrite <- Hstream in Hlen.
      rewrite Nat.mod_small in Hlen by exact Hcache.
      destruct (Base64Decoder.cache self); [reflexivity | discriminate]. }
    rewrite Hnil in Hstream. symmetry in Hstream.
    apply b64encode_nil_inv in Hstream. subst s.
    exists self. cbn. rewrite app_nil_r. repeat split. exact Hnil.
  - cbn [concat] in Hstream. rewrite app_assoc in Hstream.
    fold (b64_buffer self chunk) in Hstream.
    rewrite b64_buffer_split, <- app_assoc in Hstream.
    destruct (b64encode_split s _ _ (eq_sym Hstream)) as (s1 & s2 & Hs & Hfront & Hback).
    { rewrite b64_prefix_length. apply Nat.Div0.mod_mul. }
    pose proof (b64_remainder_length self chunk) as Hrem.
    pose proof (Nat.mod_upper_bound (length (b64_buffer self chunk)) 4) as Hlt.
    cbn [Base64Decoder.write_all]. unfold bind.
    rewrite b64_write_unfold, Hfront.
    destruct (b64encode s1) as [|c val] eqn:Henc.
    + apply b64encode_nil_inv in Henc. subst s1.
      destruct (IH (Base64Decoder.mk (b64_remainder self chunk)
                      (Base64Decoder.underlying self)) s2)
        as (self' & Hrun & Hnil & Hfwd);
        cbn [Base64Decoder.cache Base64Decoder.underlying] in *;
        [lia | auto |].
      exists self'. subst s. repeat split; assumption.
    + rewrite <- Henc, b64decode_b64encode.
      destruct (IH (Base64Decoder.mk (b64_remainder self chunk)
                      (sink_record (SinkWrite s1)
                         (Base64Decoder.underlying self))) s2)
        as (self' & Hrun & Hnil & Hfwd);
        cbn [Base64Decoder.cache Base64Decoder.underlying] in *;
        [lia | auto |].
      exists self'. subst s. repeat split; try assumption.
      rewrite Hfwd, forwarded_write, app_assoc. reflexivity.
Qed.

Lemma b64_decode_stream_encoded chunks s sink :
  concat chunks = b64encode s ->
  exists self',
    Base64Decoder.decode_stream chunks (Base64Decoder.init sink)
    = (Returns tt, self') /\
    forwarded (Base64Decoder.underlying self') = forwarded sink ++ s.
Proof.
  intros Hstream.
  destruct (b64_write_all_encoded chunks (Base64Decoder.init sink) s)
    as (mid & Hrun & Hnil & Hfwd); [cbn; lia | exact Hstream |].
  unfold Base64Decoder.decode_stream, bind. rewrite Hrun.
  rewrite b64_finalize_unfold, Hnil.
  eexists. split; [reflexivity|].
  destruct (has_finalize (Base64Decoder.underlying mid));
    cbn [Base64Decoder.underlying].
  - rewrite forwarded_other by discriminate. exact Hfwd.
  - exact Hfwd.
Qed.

Lemma concat_singletons (s : bytes) : concat (map (fun c => [c]) s) = s.
Proof. induction s as [|c s IH]; cbn; [|rewrite IH]; reflexivity. Qed.

(** C3: whatever the byte sequence and however its Base64 encoding is cut
    into chunks (all at once and one byte at a time included), the writes
    and [finalize()] return and the sink is forwarded exactly the original
    bytes, in order and as many. *)
Theorem base64_round_trip :
  forall (s : bytes) (chunks : list bytes) (sink : Sink),
    concat chunks = b64encode s ->
    (exists self',
       Base64Decoder.decode_stream chunks (Base64Decoder.init sink)
       = (Returns tt, self') /\
       forwarded (Base64Decoder.underlying self') = forwarded sink ++ s /\
       length (forwarded (Base64Decoder.underlying self'))
       = length (forwarded sink) + length s) /\
    (exists self',
       Base64Decoder.decode_stream [b64encode s] (Base64Decoder.init sink)
       = (Returns tt, self') /\
       forwarded (Base64Decoder.underlying self') = forwarded sink ++ s) /\
    (exists self',
       Base64Decoder.decode_stream (map (fun c => [c]) (b64encode s))
         (Base64Decoder.init sink) = (Returns tt, self') /\
       forwarded (Base64Decoder.underlying self') = forwarded sink ++ s).
Proof.
  intros s chunks sink Hstream. repeat split.
  - destruct (b64_decode_stream_encoded chunks s sink Hstream)
      as (self' & Hrun & Hfwd).
    exists self'. repeat split; [exact Hrun | exact Hfwd |].
    rewrite Hfwd. apply length_app.
  - apply b64_decode_stream_encoded. cbn. apply app_nil_r.
  - apply b64_decode_stream_encoded. apply concat_singletons.
Qed.

Lemma base64_round_trip_witness :
  exists self',
    Base64Decoder.decode_stream [b "Zm9"; b "vYmE"; b "="]
      (Base64Decoder.init (new_sink true true)) = (Returns tt, self') /\
    forwarded (Base64Decoder.underlying self') =
    forwarded (new_sink true true) ++ b "fooba" /\
    length (forwarded (Base64Decoder.underlying self')) =
    length (forwarded (new_sink true true)) + length (b "fooba").
Proof.
  apply (proj1 (base64_round_trip (b "fooba") [b "Zm9"; b "vYmE"; b "="]
                  (new_sink true true) eq_refl)).
Defined.

(** Chunk-invariance of the Base64 decoder: however an encoded stream is cut
    into writes, the same bytes are forwarded as by a single write. *)
Corollary base64_chunk_invariance :
  forall (s : bytes) (chunks : list bytes) (sink : Sink),
    concat chunks = b64encode s ->
    fst (Base64Decoder.decode_stream chunks (Base64Decoder.init sink))
    = Returns tt /\
    forwarded (Base64Decoder.underlying
                 (snd (Base64Decoder.decode_stream chunks
                         (Base64Decoder.init sink)))) =
    forwarded (Base64Decoder.underlying
                 (snd (Base64Decoder.decode_stream [b64encode s]
                         (Base64Decoder.init sink)))).
Proof.
  intros s chunks sink Hstream.
  destruct (b64_decode_stream_encoded chunks s sink Hstream)
    as (self1 & Hrun1 & Hfwd1).
  destruct (b64_decode_stream_encoded [b64encode s] s sink)
    as (self2 & Hrun2 & Hfwd2); [cbn; apply app_nil_r|].
  rewrite Hrun1, Hrun2. cbn. split; [reflexivity | congruence].
Qed.

(** C1 fails on the quoted-printable decoder.  The stream [b"=C3=A9"]
    (the encoding of the two bytes C3 A9) written at once forwards those two
    bytes; written as [b"=C3="] then [b"A9"] it forwards [b"=C3"] followed by
    the byte A9: the first write holds back [b"3="] and decodes [b"=C"],
    cutting the escape in two. *)
Theorem qp_chunk_split_changes_output :
  let fresh := QuotedPrintableDecoder.init (new_sink false false) in
  a2b_qp (b "=C3=A9") = [xc3; xa9] /\
  QuotedPrintableDecoder.decode_stream [b "=C3=A9"] fresh =
  (Returns tt,
   QuotedPrintableDecoder.mk []
     (mkSink false false [SinkWrite [xc3; xa9]])) /\
  QuotedPrintableDecoder.decode_stream [b "=C3="; b "A9"] fresh =
  (Returns tt,
   QuotedPrintableDecoder.mk []
     (mkSink false false [SinkWrite (b "=C"); SinkWrite [x33; xa9]])) /\
  forwarded (QuotedPrintableDecoder.underlying
               (snd (QuotedPrintableDecoder.decode_stream
                       [b "=C3="; b "A9"] fresh))) <>
  forwarded (QuotedPrintableDecoder.underlying
               (snd (QuotedPrintableDecoder.decode_stream
                       [b "=C3=A9"] fresh))).
Proof.
  cbv zeta. repeat split; try reflexivity.
  vm_compute. discriminate.
Qed.

(** * Further properties *)

(** ** Streams through the quoted-printable decoder *)

Lemma qp_finalize_unfold self :
  QuotedPrintableDecoder.finalize self =
  (Returns tt,
   QuotedPrintableDecoder.mk []
     (let s := qp_forward (QuotedPrintableDecoder.cache self)
                 (QuotedPrintableDecoder.underlying self) in
      if has_finalize s then sink_record SinkFinalize s else s)).
Proof.
  unfold QuotedPrintableDecoder.finalize, bind, get, ret.
  destruct self as [cache sink]. cbn [QuotedPrintableDecoder.cache].
  destruct cache as [|c cache]; cbn.
  - destruct (has_finalize sink); reflexivity.
  - destruct (has_finalize sink); reflexivity.
Qed.

Lemma qp_decode_stream_nil self :
  QuotedPrintableDecoder.decode_stream [] self =
  QuotedPrintableDecoder.finalize self.
Proof. reflexivity. Qed.

Lemma qp_decode_stream_cons chunk more self :
  QuotedPrintableDecoder.decode_stream (chunk :: more) self =
  QuotedPrintableDecoder.decode_stream more
    (snd (QuotedPrintableDecoder.write chunk self)).
Proof.
  unfold QuotedPrintableDecoder.decode_stream.
  cbn [QuotedPrintableDecoder.write_all]. unfold bind.
  rewrite qp_write_unfold.
  destruct (qp_tail_has_equals self chunk); reflexivity.
Qed.

Lemma a2b_qp_literal c rest :
  Byte.eqb c EQUALS = false -> a2b_qp (c :: rest) = c :: a2b_qp rest.
Proof. intros E. cbn [a2b_qp]. rewrite E. reflexivity. Qed.

Lemma find_none_cons c x rest :
  find (x :: rest) c = None <-> Byte.eqb x c = false /\ find rest c = None.
Proof.
  cbn [find]. destruct (Byte.eqb x c).
  - split; [discriminate | intros [H _]; discriminate].
  - destruct (find rest c); split; try discriminate; try tauto.
    intros [_ H]; discriminate.
Qed.

Lemma slice_last_2_cons c x :
  2 <= length x -> slice_last 2 (c :: x) = slice_last 2 x.
Proof.
  intros H. unfold slice_last. cbn [length].
  replace (S (length x) - 2) with (S (length x - 2)) by lia. reflexivity.
Qed.

Lemma tail_clear_cons c x :
  find (slice_last 2 (c :: x)) EQUALS = None ->
  find (slice_last 2 x) EQUALS = None.
Proof.
  destruct x as [|a [|a' x]].
  - reflexivity.
  - change (slice_last 2 [c; a]) with [c; a].
    change (slice_last 2 [a]) with [a].
    intros H. apply find_none_cons in H. apply H.
  - rewrite slice_last_2_cons by (cbn; lia). auto.
Qed.

Lemma soft_breaks_closed_cons c x :
  soft_breaks_closed (c :: x) = true -> soft_breaks_closed x = true.
Proof. cbn [soft_breaks_closed]. intros H. apply andb_prop in H. apply H. Qed.

Lemma soft_break_head c1 c2 rest :
  soft_breaks_closed (EQUALS :: c1 :: c2 :: rest) = true ->
  Byte.eqb c1 CR = true -> Byte.eqb c2 LF = true.
Proof.
  cbn [soft_breaks_closed]. change (Byte.eqb EQUALS EQUALS) with true.
  cbv iota. intros H E. rewrite E in H. apply andb_prop in H. apply H.
Qed.

Lemma a2b_qp_escape c1 c2 rest :
  a2b_qp (EQUALS :: c1 :: c2 :: rest) =
  if Byte.eqb c1 LF then a2b_qp (c2 :: rest)
  else if Byte.eqb c1 CR then
    if Byte.eqb c2 LF then a2b_qp rest
    else a2b_qp (EQUALS :: CR :: rest)
  else if Byte.eqb c1 EQUALS then EQUALS :: a2b_qp (c2 :: rest)
  else if is_hex c1 && is_hex c2 then
    byte_of_N (N.lor (N.shiftl (digit_value c1) 4) (digit_value c2))
    :: a2b_qp rest
  else EQUALS :: a2b_qp (c1 :: c2 :: rest).
Proof.
  cbn [a2b_qp]. change (Byte.eqb EQUALS EQUALS) with true. cbv iota.
  change (Byte.eqb CR LF) with false. change (Byte.eqb CR CR) with true.
  cbv iota.
  destruct (Byte.eqb c1 LF); [reflexivity|].
  destruct (Byte.eqb c1 CR); [|reflexivity].
  destruct (Byte.eqb c2 LF); reflexivity.
Qed.

(** [a2b_qp] decodes a buffer piecewise when the cut does not follow an
    equals sign by one or two bytes and no soft line break is left open. *)
Lemma a2b_qp_app n :
  forall x y,
    length x <= n ->
    find (slice_last 2 x) EQUALS = None ->
    soft_breaks_closed (x ++ y) = true ->
    a2b_qp (x ++ y) = a2b_qp x ++ a2b_qp y.
Proof.
  induction n as [|n IH]; intros x y Hlen Htail Hclosed.
  - destruct x; [reflexivity | cbn in Hlen; lia].
  - destruct x as [|c x1]; [reflexivity|].
    destruct (Byte.eqb c EQUALS) eqn:Ec.
    + apply byte_dec_bl in Ec. subst c.
      destruct x1 as [|c1 [|c2 x2]]; try (cbn in Htail; discriminate).
      change ((EQUALS :: c1 :: c2 :: x2) ++ y)
        with (EQUALS :: c1 :: c2 :: (x2 ++ y)) in *.
      pose proof (tail_clear_cons _ _ Htail) as Htail1.
      pose proof (tail_clear_cons _ _ Htail1) as Htail2.
      pose proof (tail_clear_cons _ _ Htail2) as Htail3.
      pose proof (soft_breaks_closed_cons _ _ Hclosed) as Hclosed1.
      pose proof (soft_breaks_closed_cons _ _ Hclosed1) as Hclosed2.
      pose proof (soft_breaks_closed_cons _ _ Hclosed2) as Hclosed3.
      pose proof (soft_break_head _ _ _ Hclosed) as Hhead.
      cbn [length] in Hlen.
      rewrite !a2b_qp_escape.
      destruct (Byte.eqb c1 LF) eqn:E1.
      { apply (IH (c2 :: x2) y); [cbn [length]; lia | assumption | assumption]. }
      destruct (Byte.eqb c1 CR) eqn:E2.
      { rewrite (Hhead eq_refl).
        apply IH; [lia | assumption | assumption]. }
      destruct (Byte.eqb c1 EQUALS) eqn:E3.
      { rewrite <- app_comm_cons. f_equal.
        apply (IH (c2 :: x2) y); [cbn [length]; lia | assumption | assumption]. }
      destruct (is_hex c1 && is_hex c2).
      { rewrite <- app_comm_cons. f_equal.
        apply IH; [lia | assumption | assumption]. }
      rewrite <- app_comm_cons. f_equal.
      apply (IH (c1 :: c2 :: x2) y);
        [cbn [length]; lia | assumption | assumption].
    + cbn [app]. rewrite !a2b_qp_literal by exact Ec.
      rewrite <- app_comm_cons. f_equal.
      apply IH; [cbn [length] in Hlen; lia | | ].
      * eapply tail_clear_cons. exact Htail.
      * eapply soft_breaks_closed_cons. exact Hclosed.
Qed.

Lemma in_found (c : byte) (x : bytes) : In c x -> found (find x c) = true.
Proof.
  induction x as [|a x IH]; intros Hin; [destruct Hin|].
  cbn [find]. destruct (Byte.eqb a c) eqn:E; [reflexivity|].
  destruct Hin as [Ha|Hin].
  - subst a. rewrite (byte_dec_lb eq_refl) in E. discriminate.
  - apply IH in Hin. destruct (find x c); [reflexivity | discriminate].
Qed.

Lemma find_none_not_in (c : byte) (x : bytes) : find x c = None -> ~ In c x.
Proof.
  intros Hnone Hin. apply in_found in Hin. rewrite Hnone in Hin. discriminate.
Qed.

Lemma not_in_find_none (c : byte) (x : bytes) : ~ In c x -> find x c = None.
Proof.
  intros Hnot. destruct (find x c) eqn:E; [|reflexivity].
  exfalso. apply Hnot. apply find_some_in. rewrite E. reflexivity.
Qed.

Lemma equals_spaced_cons c x :
  equals_spaced (c :: x) = true -> equals_spaced x = true.
Proof. cbn [equals_spaced]. intros H. apply andb_prop in H. apply H. Qed.

Lemma equals_spaced_head x :
  equals_spaced (EQUALS :: x) = true -> ~ In EQUALS (firstn 3 x).
Proof.
  cbn [equals_spaced]. change (Byte.eqb EQUALS EQUALS) with true. cbv iota.
  intros H. apply andb_prop in H. destruct H as [H _].
  apply negb_true_iff in H. intros Hin. apply in_found in Hin. congruence.
Qed.

Lemma equals_spaced_skip x : forall y,
  equals_spaced (x ++ y) = true -> equals_spaced y = true.
Proof.
  induction x as [|c x IH]; intros y H; [exact H|].
  apply IH. apply (equals_spaced_cons c). exact H.
Qed.

Lemma soft_breaks_closed_skip x : forall y,
  soft_breaks_closed (x ++ y) = true -> soft_breaks_closed y = true.
Proof.
  induction x as [|c x IH]; intros y H; [exact H|].
  apply IH. apply (soft_breaks_closed_cons c). exact H.
Qed.

(** With spaced equals signs, the bytes decoded ahead of a held-back tail
    never end inside an escape. *)
Lemma spaced_tail_clear enc :
  forall held rest,
    equals_spaced (enc ++ held ++ rest) = true ->
    In EQUALS held -> length held <= 2 ->
    find (slice_last 2 enc) EQUALS = None.
Proof.
  induction enc as [|c enc IH]; intros held rest Hspaced Hin Hlen.
  - reflexivity.
  - pose proof (equals_spaced_cons _ _ Hspaced) as Hrest.
    destruct enc as [|a [|a' enc]].
    + change (slice_last 2 [c]) with [c]. apply find_none_cons. split.
      * destruct (Byte.eqb c EQUALS) eqn:E; [|reflexivity].
        apply byte_dec_bl in E. subst c. exfalso.
        apply (equals_spaced_head _ Hspaced). cbn [app].
        rewrite firstn_app. apply in_or_app. left.
        rewrite firstn_all2 by lia. exact Hin.
      * reflexivity.
    + change (slice_last 2 [c; a]) with [c; a]. apply find_none_cons. split.
      * destruct (Byte.eqb c EQUALS) eqn:E; [|reflexivity].
        apply byte_dec_bl in E. subst c. exfalso.
        apply (equals_spaced_head _ Hspaced).
        change (firstn 3 ([a] ++ held ++ rest))
          with (a :: firstn 2 (held ++ rest)).
        right. rewrite firstn_app. apply in_or_app. left.
        rewrite firstn_all2 by lia. exact Hin.
      * apply (IH held rest Hrest Hin Hlen).
    + rewrite slice_last_2_cons by (cbn [length]; lia).
      apply (IH held rest Hrest Hin Hlen).
Qed.

Lemma qp_write_spaced self chunk rest :
  equals_spaced (qp_buffer self chunk ++ rest) = true ->
  soft_breaks_closed (qp_buffer self chunk ++ rest) = true ->
  let mid := snd (QuotedPrintableDecoder.write chunk self) in
  forwarded (QuotedPrintableDecoder.underlying mid)
  ++ a2b_qp (QuotedPrintableDecoder.cache mid ++ rest) =
  forwarded (QuotedPrintableDecoder.underlying self)
  ++ a2b_qp (qp_buffer self chunk ++ rest) /\
  equals_spaced (QuotedPrintableDecoder.cache mid ++ rest) = true /\
  soft_breaks_closed (QuotedPrintableDecoder.cache mid ++ rest) = true.
Proof.
  intros Hspaced Hclosed. cbv zeta. rewrite qp_write_unfold.
  destruct (qp_tail_has_equals self chunk) eqn:Etail;
    cbn [snd QuotedPrintableDecoder.cache QuotedPrintableDecoder.underlying].
  - unfold qp_tail_has_equals in Etail. apply find_some_in in Etail.
    pose proof (firstn_skipn (length (qp_buffer self chunk) - 2)
                  (qp_buffer self chunk)) as Hcut.
    fold (slice_drop_last 2 (qp_buffer self chunk)) in Hcut.
    fold (slice_last 2 (qp_buffer self chunk)) in Hcut.
    rewrite <- Hcut, <- app_assoc in Hspaced, Hclosed.
    rewrite <- Hcut at 3. rewrite <- app_assoc.
    repeat split.
    + rewrite qp_forward_forwarded, <- app_assoc. f_equal.
      symmetry.
      apply (a2b_qp_app (length (slice_drop_last 2 (qp_buffer self chunk))));
        [lia | | exact Hclosed].
      apply (spaced_tail_clear _ _ _ Hspaced Etail).
      rewrite slice_last_length. lia.
    + apply (equals_spaced_skip _ _ Hspaced).
    + apply (soft_breaks_closed_skip _ _ Hclosed).
  - unfold qp_tail_has_equals in Etail.
    cbn [app]. repeat split.
    + rewrite qp_forward_forwarded, <- app_assoc. f_equal.
      symmetry.
      apply (a2b_qp_app (length (qp_buffer self chunk)));
        [lia | | exact Hclosed].
      destruct (find (slice_last 2 (qp_buffer self chunk)) EQUALS);
        [discriminate | reflexivity].
    + apply (equals_spaced_skip _ _ Hspaced).
    + apply (soft_breaks_closed_skip _ _ Hclosed).
Qed.

(** The decoder's result on a stream with spaced equals signs and complete
    soft line breaks, whatever state it starts in. *)
Lemma qp_decode_stream_spaced chunks :
  forall self,
    equals_spaced (QuotedPrintableDecoder.cache self ++ concat chunks) = true ->
    soft_breaks_closed (QuotedPrintableDecoder.cache self ++ concat chunks)
    = true ->
    fst (QuotedPrintableDecoder.decode_stream chunks self) = Returns tt /\
    QuotedPrintableDecoder.cache
      (snd (QuotedPrintableDecoder.decode_stream chunks self)) = [] /\
    forwarded (QuotedPrintableDecoder.underlying
                 (snd (QuotedPrintableDecoder.decode_stream chunks self))) =
    forwarded (QuotedPrintableDecoder.underlying self)
    ++ a2b_qp (QuotedPrintableDecoder.cache self ++ concat chunks).
Proof.
  induction chunks as [|chunk more IH]; intros self Hspaced Hclosed.
  - rewrite qp_decode_stream_nil, qp_finalize_unfold.
    cbn [fst snd concat QuotedPrintableDecoder.cache
         QuotedPrintableDecoder.underlying].
    rewrite app_nil_r. repeat split.
    cbv zeta.
    destruct (has_finalize _).
    + rewrite forwarded_other by discriminate. apply qp_forward_forwarded.
    + apply qp_forward_forwarded.
  - rewrite qp_decode_stream_cons.
    cbn [concat] in Hspaced, Hclosed |- *.
    rewrite app_assoc in Hspaced, Hclosed |- *.
    fold (qp_buffer self chunk) in Hspaced, Hclosed |- *.
    destruct (qp_write_spaced self chunk (concat more) Hspaced Hclosed)
      as (Hfwd & Hspaced' & Hclosed').
    destruct (IH _ Hspaced' Hclosed') as (Hret & Hnil & Hout).
    repeat split; [exact Hret | exact Hnil |].
    rewrite Hout. exact Hfwd.
Qed.

(** X1: on a quoted-printable stream whose equals signs are at least four
    bytes apart and whose soft line breaks are complete, the cutting into
    writes does not matter: the writes and [finalize()] return, the cache
    ends empty, and the bytes forwarded are [a2b_qp] of the whole stream,
    the same as for a single write. *)
Theorem qp_spaced_stream_chunk_invariant :
  forall (chunks : list bytes) (sink : Sink),
    equals_spaced (concat chunks) = true ->
    soft_breaks_closed (concat chunks) = true ->
    let final := snd (QuotedPrintableDecoder.decode_stream chunks
                        (QuotedPrintableDecoder.init sink)) in
    fst (QuotedPrintableDecoder.decode_stream chunks
           (QuotedPrintableDecoder.init sink)) = Returns tt /\
    QuotedPrintableDecoder.cache final = [] /\
    forwarded (QuotedPrintableDecoder.underlying final) =
    forwarded sink ++ a2b_qp (concat chunks) /\
    forwarded (QuotedPrintableDecoder.underlying final) =
    forwarded (QuotedPrintableDecoder.underlying
                 (snd (QuotedPrintableDecoder.decode_stream [concat chunks]
                         (QuotedPrintableDecoder.init sink)))).
Proof.
  intros chunks sink Hspaced Hclosed. cbv zeta.
  destruct (qp_decode_stream_spaced chunks (QuotedPrintableDecoder.init sink)
              Hspaced Hclosed) as (Hret & Hnil & Hfwd).
  destruct (qp_decode_stream_spaced [concat chunks]
              (QuotedPrintableDecoder.init sink)) as (_ & _ & Hone).
  { cbn [concat QuotedPrintableDecoder.init QuotedPrintableDecoder.cache app].
    rewrite app_nil_r. exact Hspaced. }
  { cbn [concat QuotedPrintableDecoder.init QuotedPrintableDecoder.cache app].
    rewrite app_nil_r. exact Hclosed. }
  cbn [concat QuotedPrintableDecoder.init QuotedPrintableDecoder.cache
       QuotedPrintableDecoder.underlying app] in Hfwd, Hone.
  rewrite app_nil_r in Hone.
  repeat split; [exact Hret | exact Hnil | exact Hfwd | congruence].
Qed.

Lemma qp_spaced_stream_chunk_invariant_witness :
  forwarded
    (QuotedPrintableDecoder.underlying
       (snd (QuotedPrintableDecoder.decode_stream
               [b "caf=C"; b "3!=" ++ [CR]; [LF] ++ b "ok=3"; b "D"]
               (QuotedPrintableDecoder.init (new_sink true true))))) =
  [] ++ a2b_qp (concat [b "caf=C"; b "3!=" ++ [CR]; [LF] ++ b "ok=3"; b "D"]).
Proof.
  apply (qp_spaced_stream_chunk_invariant
           [b "caf=C"; b "3!=" ++ [CR]; [LF] ++ b "ok=3"; b "D"]
           (new_sink true true) eq_refl eq_refl).
Defined.

Lemma a2b_qp_plain_app x : forall y,
  ~ In EQUALS x -> a2b_qp (x ++ y) = x ++ a2b_qp y.
Proof.
  induction x as [|c x IH]; intros y Hnot; [reflexivity|].
  apply not_in_cons_eqb in Hnot. destruct Hnot as [Ec Hrest].
  cbn [app]. rewrite a2b_qp_literal by exact Ec. rewrite IH by exact Hrest.
  reflexivity.
Qed.

Lemma equals_spaced_plain_app x : forall y,
  ~ In EQUALS x -> equals_spaced (x ++ y) = equals_spaced y.
Proof.
  induction x as [|c x IH]; intros y Hnot; [reflexivity|].
  apply not_in_cons_eqb in Hnot. destruct Hnot as [Ec Hrest].
  cbn [app equals_spaced]. rewrite Ec. cbn [andb]. apply IH. exact Hrest.
Qed.

Lemma soft_breaks_closed_plain_app x : forall y,
  ~ In EQUALS x -> soft_breaks_closed (x ++ y) = soft_breaks_closed y.
Proof.
  induction x as [|c x IH]; intros y Hnot; [reflexivity|].
  apply not_in_cons_eqb in Hnot. destruct Hnot as [Ec Hrest].
  cbn [app soft_breaks_closed]. rewrite Ec. cbn [andb]. apply IH. exact Hrest.
Qed.

(** X2: a soft line break between two stretches of bytes free of equals
    signs leaves no trace, however the stream is cut into writes (inside the
    break included): the sink is forwarded the first stretch followed by the
    second. *)
Theorem qp_soft_line_break_any_chunking :
  forall (before after : bytes) (chunks : list bytes) (sink : Sink),
    ~ In EQUALS before -> ~ In EQUALS after ->
    concat chunks = before ++ [EQUALS; CR; LF] ++ after ->
    fst (QuotedPrintableDecoder.decode_stream chunks
           (QuotedPrintableDecoder.init sink)) = Returns tt /\
    forwarded (QuotedPrintableDecoder.underlying
                 (snd (QuotedPrintableDecoder.decode_stream chunks
                         (QuotedPrintableDecoder.init sink)))) =
    forwarded sink ++ before ++ after.
Proof.
  intros before after chunks sink Hbefore Hafter Hstream.
  assert (Hspaced : equals_spaced (concat chunks) = true).
  { rewrite Hstream, equals_spaced_plain_app by exact Hbefore.
    cbn [app equals_spaced].
    change (Byte.eqb EQUALS EQUALS) with true.
    change (Byte.eqb CR EQUALS) with false.
    change (Byte.eqb LF EQUALS) with false. cbv iota. cbn [andb].
    rewrite <- (app_nil_r after), equals_spaced_plain_app by exact Hafter.
    rewrite app_nil_r, andb_true_r. apply negb_true_iff.
    destruct after as [|a after]; [reflexivity|].
    apply not_in_cons_eqb in Hafter. destruct Hafter as [Ea _].
    cbn. rewrite Ea. reflexivity. }
  assert (Hclosed : soft_breaks_closed (concat chunks) = true).
  { rewrite Hstream, soft_breaks_closed_plain_app by exact Hbefore.
    cbn [app soft_breaks_closed].
    change (Byte.eqb EQUALS EQUALS) with true.
    change (Byte.eqb CR EQUALS) with false.
    change (Byte.eqb LF EQUALS) with false.
    change (Byte.eqb CR CR) with true.
    change (Byte.eqb LF LF) with true. cbv iota. cbn [andb].
    rewrite <- (app_nil_r after), soft_breaks_closed_plain_app by exact Hafter.
    reflexivity. }
  destruct (qp_decode_stream_spaced chunks (QuotedPrintableDecoder.init sink)
              Hspaced Hclosed) as (Hret & _ & Hfwd).
  split; [exact Hret|]. rewrite Hfwd.
  cbn [QuotedPrintableDecoder.init QuotedPrintableDecoder.cache
       QuotedPrintableDecoder.underlying app].
  rewrite Hstream, a2b_qp_plain_app by exact Hbefore.
  f_equal. f_equal.
  change ([EQUALS; CR; LF] ++ after) with (EQUALS :: CR :: LF :: after).
  rewrite a2b_qp_escape.
  change (Byte.eqb CR LF) with false. change (Byte.eqb CR CR) with true.
  change (Byte.eqb LF LF) with true. cbv iota.
  rewrite <- (app_nil_r after) at 1.
  rewrite a2b_qp_plain_app by exact Hafter. apply app_nil_r.
Qed.

Lemma qp_soft_line_break_any_chunking_witness :
  forwarded
    (QuotedPrintableDecoder.underlying
       (snd (QuotedPrintableDecoder.decode_stream
               [b "long li"; b "ne="; [CR]; [LF] ++ b "goes on"]
               (QuotedPrintableDecoder.init (new_sink false true))))) =
  [] ++ b "long line" ++ b "goes on".
Proof.
  refine (proj2 (qp_soft_line_break_any_chunking
                   (b "long line") (b "goes on")
                   [b "long li"; b "ne="; [CR]; [LF] ++ b "goes on"]
                   (new_sink false true) _ _ eq_refl)).
  - vm_compute. intros H. repeat (destruct H as [H|H]; [discriminate|]). exact H.
  - vm_compute. intros H. repeat (destruct H as [H|H]; [discriminate|]). exact H.
Defined.

Lemma qp_write_all_cons chunk more self :
  QuotedPrintableDecoder.write_all (chunk :: more) self =
  QuotedPrintableDecoder.write_all more
    (snd (QuotedPrintableDecoder.write chunk self)).
Proof.
  cbn [QuotedPrintableDecoder.write_all]. unfold bind.
  rewrite qp_write_unfold.
  destruct (qp_tail_has_equals self chunk); reflexivity.
Qed.

Lemma tail_of_plain (x : bytes) :
  ~ In EQUALS x -> find (slice_last 2 x) EQUALS = None.
Proof.
  intros Hnot. apply not_in_find_none. intros Hin. apply Hnot.
  unfold slice_last in Hin.
  rewrite <- (firstn_skipn (length x - 2) x). apply in_or_app. right. exact Hin.
Qed.

Lemma a2b_qp_plain (x : bytes) : ~ In EQUALS x -> a2b_qp x = x.
Proof.
  intros Hnot. rewrite <- (app_nil_r x) at 1.
  rewrite a2b_qp_plain_app by exact Hnot. apply app_nil_r.
Qed.

Lemma qp_forward_writes enc s :
  writes_of (calls (qp_forward enc s)) =
  writes_of (calls s) ++ (if 0 <? length enc then [a2b_qp enc] else []).
Proof.
  destruct enc as [|c enc]; cbn [qp_forward length Nat.ltb Nat.leb].
  - symmetry. apply app_nil_r.
  - unfold sink_record. cbn [calls]. rewrite writes_of_app. reflexivity.
Qed.

(** X3: bytes free of equals signs pass through the quoted-printable decoder
    at once and unchanged: after any sequence of such writes on a fresh
    decoder nothing is held in the cache, and the sink has received exactly
    the non-empty chunks, one [write] each, in order. *)
Theorem qp_plain_bytes_pass_through :
  forall (chunks : list bytes) (sink : Sink),
    ~ In EQUALS (concat chunks) ->
    let after := QuotedPrintableDecoder.write_all chunks
                   (QuotedPrintableDecoder.init sink) in
    fst after = Returns tt /\
    QuotedPrintableDecoder.cache (snd after) = [] /\
    writes_of (calls (QuotedPrintableDecoder.underlying (snd after))) =
    writes_of (calls sink) ++ filter (fun d => 0 <? length d) chunks /\
    forwarded (QuotedPrintableDecoder.underlying (snd after)) =
    forwarded sink ++ concat chunks.
Proof.
  intros chunks sink. unfold QuotedPrintableDecoder.init. cbv zeta.
  revert sink.
  induction chunks as [|chunk more IH]; intros sink Hplain.
  - cbn. rewrite !app_nil_r. repeat split.
  - cbn [concat] in Hplain.
    assert (Hchunk : ~ In EQUALS chunk)
      by (intros H; apply Hplain, in_or_app; left; exact H).
    assert (Hmore : ~ In EQUALS (concat more))
      by (intros H; apply Hplain, in_or_app; right; exact H).
    rewrite qp_write_all_cons, qp_write_unfold.
    unfold qp_tail_has_equals, qp_buffer.
    cbn [QuotedPrintableDecoder.cache QuotedPrintableDecoder.underlying app].
    rewrite (tail_of_plain chunk Hchunk). cbn [found snd].
    destruct (IH (qp_forward chunk sink) Hmore) as (Hret & Hnil & Hwrites & Hfwd).
    repeat split; [exact Hret | exact Hnil | |].
    + rewrite Hwrites, qp_forward_writes, a2b_qp_plain by exact Hchunk.
      cbn [filter]. rewrite <- app_assoc.
      destruct (0 <? length chunk); reflexivity.
    + rewrite Hfwd, qp_forward_forwarded, a2b_qp_plain by exact Hchunk.
      cbn [concat]. symmetry. apply app_assoc.
Qed.

Lemma qp_plain_bytes_pass_through_witness :
  writes_of
    (calls
       (QuotedPrintableDecoder.underlying
          (snd (QuotedPrintableDecoder.write_all [b "Hello, "; []; b "world"]
                  (QuotedPrintableDecoder.init (new_sink false false)))))) =
  [] ++ [b "Hello, "; b "world"].
Proof.
  refine (proj1 (proj2 (proj2 (qp_plain_bytes_pass_through
                                 [b "Hello, "; []; b "world"]
                                 (new_sink false false) _)))).
  vm_compute. intros H. repeat (destruct H as [H|H]; [discriminate|]). exact H.
Defined.

(** X4: the quoted-printable decoder never raises and never loses or repeats
    input.  For any writes followed by [finalize()], from any state, the
    calls return, the cache ends empty, and the sink's new writes are
    [a2b_qp] of non-empty pieces which, put end to end, are exactly the bytes
    cached at the start followed by all the bytes written. *)
Theorem qp_stream_conserves_input :
  forall (chunks : list bytes) (self : QuotedPrintableDecoder.t),
  exists pieces : list bytes,
    fst (QuotedPrintableDecoder.decode_stream chunks self) = Returns tt /\
    QuotedPrintableDecoder.cache
      (snd (QuotedPrintableDecoder.decode_stream chunks self)) = [] /\
    concat pieces = QuotedPrintableDecoder.cache self ++ concat chunks /\
    ~ In [] pieces /\
    writes_of (calls (QuotedPrintableDecoder.underlying
                        (snd (QuotedPrintableDecoder.decode_stream chunks self))))
    = writes_of (calls (QuotedPrintableDecoder.underlying self))
      ++ map a2b_qp pieces.
Proof.
  assert (Hpiece : forall enc s,
    exists piece : list bytes,
      concat piece = enc /\ ~ In [] piece /\
      writes_of (calls (qp_forward enc s)) =
      writes_of (calls s) ++ map a2b_qp piece).
  { intros enc s. destruct enc as [|c enc].
    - exists []. cbn. rewrite app_nil_r. repeat split. tauto.
    - exists [c :: enc]. cbn [concat map]. rewrite app_nil_r.
      repeat split.
      + intros [H|[]]. discriminate.
      + unfold qp_forward, sink_record. cbn [calls].
        rewrite writes_of_app. reflexivity. }
  induction chunks as [|chunk more IH]; intros self.
  - rewrite qp_decode_stream_nil, qp_finalize_unfold.
    cbn [fst snd concat QuotedPrintableDecoder.cache
         QuotedPrintableDecoder.underlying]. cbv zeta.
    destruct (Hpiece (QuotedPrintableDecoder.cache self)
                (QuotedPrintableDecoder.underlying self))
      as (piece & Hcat & Hne & Hw).
    exists piece. rewrite app_nil_r. repeat split; try assumption.
    destruct (has_finalize _); [|exact Hw].
    unfold sink_record. cbn [calls]. rewrite writes_of_app. cbn [writes_of].
    rewrite app_nil_r. exact Hw.
  - rewrite qp_decode_stream_cons.
    destruct (IH (snd (QuotedPrintableDecoder.write chunk self)))
      as (pieces & Hret & Hnil & Hcat & Hne & Hw).
    assert (Hstep : exists piece : list bytes,
      concat piece
      ++ QuotedPrintableDecoder.cache
           (snd (QuotedPrintableDecoder.write chunk self))
      = qp_buffer self chunk /\ ~ In [] piece /\
      writes_of (calls (QuotedPrintableDecoder.underlying
                          (snd (QuotedPrintableDecoder.write chunk self))))
      = writes_of (calls (QuotedPrintableDecoder.underlying self))
        ++ map a2b_qp piece).
    { rewrite qp_write_unfold.
      destruct (qp_tail_has_equals self chunk);
        cbn [snd QuotedPrintableDecoder.cache
             QuotedPrintableDecoder.underlying].
      - destruct (Hpiece (slice_drop_last 2 (qp_buffer self chunk))
                    (QuotedPrintableDecoder.underlying self))
          as (piece & Hpcat & Hpne & Hpw).
        exists piece. rewrite Hpcat. repeat split; try assumption.
        unfold slice_drop_last, slice_last. apply firstn_skipn.
      - destruct (Hpiece (qp_buffer self chunk)
                    (QuotedPrintableDecoder.underlying self))
          as (piece & Hpcat & Hpne & Hpw).
        exists piece. rewrite Hpcat, app_nil_r.
        repeat split; assumption. }
    destruct Hstep as (piece & Hpcat & Hpne & Hpw).
    exists (piece ++ pieces). repeat split; try assumption.
    + rewrite concat_app, Hcat, app_assoc, Hpcat.
      unfold qp_buffer. cbn [concat]. rewrite app_assoc. reflexivity.
    + intros Hin. apply in_app_or in Hin. tauto.
    + rewrite Hw, Hpw, map_app, app_assoc. reflexivity.
Qed.

(** X5: an empty write is without effect on a quoted-printable decoder whose
    cache is as a [write] leaves it (empty, or at most two bytes with an
    equals sign among them): nothing is forwarded, the cache is kept, and the
    call returns the length of the cache. *)
Theorem qp_empty_write_no_effect :
  forall self : QuotedPrintableDecoder.t,
    QuotedPrintableDecoder.cache self = [] \/
    (In EQUALS (QuotedPrintableDecoder.cache self) /\
     length (QuotedPrintableDecoder.cache self) <= 2) ->
    QuotedPrintableDecoder.write [] self =
    (Returns (length (QuotedPrintableDecoder.cache self)), self).
Proof.
  intros [cache sink]. cbn [QuotedPrintableDecoder.cache]. intros Hshape.
  rewrite qp_write_unfold. unfold qp_tail_has_equals, qp_buffer.
  cbn [QuotedPrintableDecoder.cache QuotedPrintableDecoder.underlying].
  rewrite app_nil_r.
  destruct Hshape as [Hnil | [Hin Hlen]].
  - subst cache. reflexivity.
  - assert (Hall : slice_last 2 cache = cache).
    { unfold slice_last. replace (length cache - 2) with 0 by lia. reflexivity. }
    assert (Hnone : slice_drop_last 2 cache = []).
    { unfold slice_drop_last. replace (length cache - 2) with 0 by lia.
      reflexivity. }
    rewrite Hall, Hnone, (in_found _ _ Hin). reflexivity.
Qed.

Lemma qp_empty_write_no_effect_witness :
  QuotedPrintableDecoder.write []
    (QuotedPrintableDecoder.mk (b "=4") (new_sink false false)) =
  (Returns 2, QuotedPrintableDecoder.mk (b "=4") (new_sink false false)).
Proof.
  apply (qp_empty_write_no_effect
           (QuotedPrintableDecoder.mk (b "=4") (new_sink false false))).
  right. split; [left; reflexivity | cbn; lia].
Defined.

(** ** [close()] *)




(** ** More on the Base64 decoder *)

(** X7: a Base64 write that leaves fewer than 4 bytes in hand (cache and new
    data together) cannot fail and forwards nothing: the new bytes are added
    to the cache.  An empty write on a decoder with a short cache is thus
    without effect. *)
Theorem base64_short_write :
  forall (self : Base64Decoder.t) (data : bytes),
    length (Base64Decoder.cache self) + length data < 4 ->
    Base64Decoder.write data self =
    (Returns (length (Base64Decoder.cache self) + length data),
     Base64Decoder.mk (Base64Decoder.cache self ++ data)
       (Base64Decoder.underlying self)).
Proof.
  intros self data Hshort. rewrite b64_write_unfold.
  unfold b64_prefix, b64_remainder, b64_buffer, slice_to.
  rewrite length_app, Nat.div_small by exact Hshort.
  reflexivity.
Qed.

Lemma base64_short_write_witness :
  Base64Decoder.write (b "m9")
    (Base64Decoder.mk (b "Z") (new_sink false false)) =
  (Returns 3, Base64Decoder.mk (b "Zm9") (new_sink false false)).
Proof.
  apply (base64_short_write
           (Base64Decoder.mk (b "Z") (new_sink false false)) (b "m9")).
  cbn. lia.
Defined.

Lemma b64_write_all_pieces chunks :
  forall self self',
    Base64Decoder.write_all chunks self = (Returns tt, self') ->
    exists (pieces decoded : list bytes),
      concat pieces ++ Base64Decoder.cache self'
      = Base64Decoder.cache self ++ concat chunks /\
      Forall (fun piece => piece <> [] /\ length piece mod 4 = 0) pieces /\
      Forall2 (fun piece out => b64decode piece = Some out) pieces decoded /\
      writes_of (calls (Base64Decoder.underlying self'))
      = writes_of (calls (Base64Decoder.underlying self)) ++ decoded.
Proof.
  induction chunks as [|chunk more IH]; intros self self' Hrun.
  - cbn in Hrun. unfold ret in Hrun. inversion Hrun; subst self'.
    exists [], []. cbn [concat app]. rewrite !app_nil_r.
    repeat split; constructor.
  - cbn [Base64Decoder.write_all] in Hrun. unfold bind in Hrun.
    destruct (Base64Decoder.write chunk self) as [[n|e] mid] eqn:Hw;
      [|discriminate].
    destruct (IH mid self' Hrun) as (pieces & decoded & Hcat & Hall & Hdec & Hwr).
    rewrite b64_write_unfold in Hw.
    pose proof (b64_buffer_split self chunk) as Hsplit.
    pose proof (b64_prefix_length self chunk) as Hplen.
    destruct (b64_prefix self chunk) as [|c val] eqn:Hprefix.
    + inversion Hw; subst n mid. clear Hw.
      cbn [Base64Decoder.cache Base64Decoder.underlying] in *.
      exists pieces, decoded. repeat split; try assumption.
      rewrite Hcat. cbn [concat]. rewrite app_assoc. f_equal.
      symmetry. exact Hsplit.
    + destruct (b64decode (c :: val)) as [out|] eqn:Hout; [|discriminate].
      inversion Hw; subst n mid. clear Hw.
      cbn [Base64Decoder.cache Base64Decoder.underlying] in *.
      exists ((c :: val) :: pieces), (out :: decoded). repeat split.
      * cbn [concat]. rewrite <- app_assoc, Hcat, app_assoc, <- Hsplit.
        unfold b64_buffer. rewrite <- app_assoc. reflexivity.
      * constructor; [|exact Hall]. split; [discriminate|].
        rewrite Hplen. apply Nat.Div0.mod_mul.
      * constructor; assumption.
      * rewrite Hwr. unfold sink_record. cbn [calls].
        rewrite writes_of_app, <- app_assoc. reflexivity.
Qed.

Lemma concat_aligned (pieces : list bytes) :
  Forall (fun piece => piece <> [] /\ length piece mod 4 = 0) pieces ->
  length (concat pieces) mod 4 = 0.
Proof.
  induction 1 as [|piece pieces [_ Hp] _ IH]; [reflexivity|].
  cbn [concat]. rewrite length_app.
  rewrite <- Nat.Div0.add_mod_idemp_l, Hp. exact IH.
Qed.

Lemma skipn_aligned_tail (front back : bytes) :
  length front mod 4 = 0 -> length back < 4 ->
  skipn (length (front ++ back) / 4 * 4) (front ++ back) = back.
Proof.
  intros Hfront Hback.
  assert (Hcut : length (front ++ back) / 4 * 4 = length front).
  { rewrite length_app.
    pose proof (Nat.div_mod_eq (length front) 4) as Hdm.
    rewrite Hfront, Nat.add_0_r in Hdm.
    replace (length front + length back)
      with (length front / 4 * 4 + length back) by lia.
    rewrite Nat.div_add_l by lia.
    rewrite (Nat.div_small (length back)) by exact Hback. lia. }
  rewrite Hcut, skipn_app, skipn_all, Nat.sub_diag. reflexivity.
Qed.

(** X8: successful Base64 writes neither lose nor repeat input.  After any
    writes that returned, on a decoder whose cache was short of a quad, the
    bytes decoded so far (in non-empty pieces of whole quads, one sink
    [write] per piece, in order) followed by the cache are exactly the
    earlier cache followed by the bytes written; and the cache is the part of
    these bytes after the last whole quad. *)
Theorem base64_writes_conserve_input :
  forall (chunks : list bytes) (self self' : Base64Decoder.t),
    length (Base64Decoder.cache self) < 4 ->
    Base64Decoder.write_all chunks self = (Returns tt, self') ->
    let input := Base64Decoder.cache self ++ concat chunks in
    exists (pieces decoded : list bytes),
      concat pieces ++ Base64Decoder.cache self' = input /\
      Forall (fun piece => piece <> [] /\ length piece mod 4 = 0) pieces /\
      Forall2 (fun piece out => b64decode piece = Some out) pieces decoded /\
      writes_of (calls (Base64Decoder.underlying self'))
      = writes_of (calls (Base64Decoder.underlying self)) ++ decoded /\
      Base64Decoder.cache self' = skipn (length input / 4 * 4) input.
Proof.
  intros chunks self self' Hshort Hrun. cbv zeta.
  destruct (b64_write_all_pieces chunks self self' Hrun)
    as (pieces & decoded & Hcat & Hall & Hdec & Hwr).
  exists pieces, decoded. repeat split; try assumption.
  rewrite <- Hcat. symmetry. apply skipn_aligned_tail.
  - apply concat_aligned. exact Hall.
  - rewrite (b64_write_all_cache_length chunks self self' Hshort Hrun).
    apply Nat.mod_upper_bound. lia.
Qed.

Lemma base64_writes_conserve_input_witness :
  exists (pieces decoded : list bytes),
    concat pieces ++ b "Y" = [] ++ concat [b "Zm"; b "9vZm9"; b "vY"] /\
    Forall (fun piece => piece <> [] /\ length piece mod 4 = 0) pieces /\
    Forall2 (fun piece out => b64decode piece = Some out) pieces decoded /\
    writes_of [SinkWrite (b "foo"); SinkWrite (b "foo")] = [] ++ decoded /\
    b "Y" =
    skipn (length ([] ++ concat [b "Zm"; b "9vZm9"; b "vY"]) / 4 * 4)
      ([] ++ concat [b "Zm"; b "9vZm9"; b "vY"]).
Proof.
  apply (base64_writes_conserve_input [b "Zm"; b "9vZm9"; b "vY"]
           (Base64Decoder.init (new_sink false false))
           (Base64Decoder.mk (b "Y")
              (mkSink false false [SinkWrite (b "foo"); SinkWrite (b "foo")]))).
  - cbn. lia.
  - reflexivity.
Defined.

(** At the start of a quad, what the loop has left over does not matter. *)
Lemma a2b_base64_loop_at_zero data :
  forall leftchar pads leftchar' pads' bin_data,
    a2b_base64_loop data 0 leftchar pads bin_data =
    a2b_base64_loop data 0 leftchar' pads' bin_data.
Proof.
  induction data as [|c rest IH]; intros l p l' p' out; [reflexivity|].
  cbn [a2b_base64_loop Nat.leb].
  destruct (Byte.eqb c EQUALS); [apply IH|].
  destruct (64 <=? table_a2b_base64 c)%N; [apply IH | reflexivity].
Qed.

(** The loop only ever appends to its output. *)
Lemma a2b_base64_loop_acc data :
  forall quad_pos leftchar pads bin_data,
    a2b_base64_loop data quad_pos leftchar pads bin_data =
    match a2b_base64_loop data quad_pos leftchar pads [] with
    | Some out => Some (bin_data ++ out)
    | None => None
    end.
Proof.
  induction data as [|c rest IH]; intros q l p out.
  - cbn [a2b_base64_loop]. destruct (Nat.eqb q 0);
      [rewrite app_nil_r|]; reflexivity.
  - cbn [a2b_base64_loop].
    destruct (Byte.eqb c EQUALS).
    + destruct (Nat.leb 2 q); [|apply IH].
      destruct (Nat.leb 4 (q + S p)); [rewrite app_nil_r; reflexivity | apply IH].
    + destruct (64 <=? table_a2b_base64 c)%N; [apply IH|].
      destruct q as [|[|[|q]]]; [apply IH | | |];
        rewrite IH; cbn [app]; rewrite (IH _ _ _ [_]);
        destruct (a2b_base64_loop rest _ _ _ []);
        try reflexivity; rewrite <- app_assoc; reflexivity.
Qed.

Lemma a2b_base64_loop_alphabet c rest quad_pos leftchar pads bin_data :
  is_alphabet c = true ->
  a2b_base64_loop (c :: rest) quad_pos leftchar pads bin_data =
  let this_ch := table_a2b_base64 c in
  match quad_pos with
  | 0 => a2b_base64_loop rest 1 this_ch 0 bin_data
  | 1 =>
      a2b_base64_loop rest 2 (N.land this_ch 15) 0
        (bin_data ++
         [byte_of_N (N.lor (N.shiftl leftchar 2) (N.shiftr this_ch 4))])
  | 2 =>
      a2b_base64_loop rest 3 (N.land this_ch 3) 0
        (bin_data ++
         [byte_of_N (N.lor (N.shiftl leftchar 4) (N.shiftr this_ch 2))])
  | _ =>
      a2b_base64_loop rest 0 0 0
        (bin_data ++ [byte_of_N (N.lor (N.shiftl leftchar 6) this_ch)])
  end.
Proof.
  unfold is_alphabet. intros Hc. apply andb_prop in Hc. destruct Hc as [Hpad Hlt].
  apply negb_true_iff in Hpad. apply N.ltb_lt in Hlt.
  cbn [a2b_base64_loop]. rewrite Hpad.
  replace (64 <=? table_a2b_base64 c)%N with false
    by (symmetry; apply N.leb_gt; exact Hlt).
  reflexivity.
Qed.

(** Whole quads of alphabet bytes decode to three bytes each, whatever
    follows them. *)
Lemma a2b_base64_loop_quads k :
  forall quads,
    length quads = 4 * k -> forallb is_alphabet quads = true ->
    exists out,
      length out = 3 * k /\
      forall rest leftchar pads bin_data,
        a2b_base64_loop (quads ++ rest) 0 leftchar pads bin_data =
        a2b_base64_loop rest 0 0 0 (bin_data ++ out).
Proof.
  induction k as [|k IH]; intros quads Hlen Halpha.
  - destruct quads; [|discriminate]. exists []. split; [reflexivity|].
    intros rest l p out. rewrite app_nil_r. apply a2b_base64_loop_at_zero.
  - destruct quads as [|c0 [|c1 [|c2 [|c3 quads]]]];
      try (cbn [length] in Hlen; lia).
    cbn [forallb] in Halpha.
    apply andb_prop in Halpha. destruct Halpha as [H0 Halpha].
    apply andb_prop in Halpha. destruct Halpha as [H1 Halpha].
    apply andb_prop in Halpha. destruct Halpha as [H2 Halpha].
    apply andb_prop in Halpha. destruct Halpha as [H3 Halpha].
    destruct (IH quads) as (out & Hout & Hloop);
      [cbn [length] in Hlen; lia | exact Halpha |].
    eexists (_ :: _ :: _ :: out). split; [cbn [length]; lia|].
    intros rest l p acc. cbn [app].
    rewrite (a2b_base64_loop_alphabet c0) by exact H0.
    rewrite (a2b_base64_loop_alphabet c1) by exact H1.
    rewrite (a2b_base64_loop_alphabet c2) by exact H2.
    rewrite (a2b_base64_loop_alphabet c3) by exact H3.
    cbv zeta. rewrite Hloop. f_equal.
    rewrite <- !app_assoc. reflexivity.
Qed.

Lemma b64decode_quads_app quads more out k :
  length quads = 4 * k -> forallb is_alphabet quads = true ->
  b64decode more = Some out ->
  exists front,
    length front = 3 * k /\
    b64decode quads = Some front /\
    b64decode (quads ++ more) = Some (front ++ out).
Proof.
  intros Hlen Halpha Hmore.
  destruct (a2b_base64_loop_quads k quads Hlen Halpha) as (front & Hfront & Hloop).
  exists front. repeat split; [exact Hfront | |].
  - unfold b64decode, a2b_base64. rewrite <- (app_nil_r quads), Hloop.
    reflexivity.
  - unfold b64decode, a2b_base64 in *. rewrite Hloop.
    rewrite a2b_base64_loop_acc, Hmore. reflexivity.
Qed.

Lemma forallb_firstn {A} (f : A -> bool) n (l : list A) :
  forallb f l = true -> forallb f (firstn n l) = true.
Proof.
  intros H. rewrite forallb_forall in *. intros x Hx. apply H.
  rewrite <- (firstn_skipn n l). apply in_or_app. left. exact Hx.
Qed.

Lemma forallb_skipn {A} (f : A -> bool) n (l : list A) :
  forallb f l = true -> forallb f (skipn n l) = true.
Proof.
  intros H. rewrite forallb_forall in *. intros x Hx. apply H.
  rewrite <- (firstn_skipn n l). apply in_or_app. right. exact Hx.
Qed.

Lemma b64_write_all_alphabet chunks :
  forall self,
    length (Base64Decoder.cache self) < 4 ->
    forallb is_alphabet (Base64Decoder.cache self ++ concat chunks) = true ->
    let input := Base64Decoder.cache self ++ concat chunks in
    exists decoded self',
      Base64Decoder.write_all chunks self = (Returns tt, self') /\
      b64decode (firstn (length input / 4 * 4) input) = Some decoded /\
      length decoded = 3 * (length input / 4) /\
      Base64Decoder.cache self' = skipn (length input / 4 * 4) input /\
      forwarded (Base64Decoder.underlying self')
      = forwarded (Base64Decoder.underlying self) ++ decoded.
Proof.
  induction chunks as [|chunk more IH]; intros self Hshort Halpha; cbv zeta.
  - cbn [concat] in *. rewrite app_nil_r in *.
    rewrite Nat.div_small by exact Hshort.
    exists [], self. cbn. rewrite app_nil_r. repeat split.
  - cbn [concat] in *. rewrite app_assoc in *.
    fold (b64_buffer self chunk) in *.
    pose proof (b64_buffer_split self chunk) as Hsplit.
    pose proof (b64_prefix_length self chunk) as Hplen.
    pose proof (b64_remainder_length self chunk) as Hrlen.
    pose proof (Nat.mod_upper_bound (length (b64_buffer self chunk)) 4) as Hlt.
    set (k := length (b64_buffer self chunk) / 4) in *.
    assert (Hpalpha : forallb is_alphabet (b64_prefix self chunk) = true).
    { unfold b64_prefix, slice_to. apply forallb_firstn.
      rewrite forallb_app in Halpha. apply andb_prop in Halpha. apply Halpha. }
    assert (Hralpha : forallb is_alphabet
                        (b64_remainder self chunk ++ concat more) = true).
    { rewrite forallb_app in Halpha |- *.
      apply andb_prop in Halpha. destruct Halpha as [Hb Hm]. rewrite Hm.
      unfold b64_remainder. rewrite forallb_skipn by exact Hb. reflexivity. }
    set (mid_sink :=
           match b64_prefix self chunk with
           | [] => Base64Decoder.underlying self
           | _ :: _ =>
               match b64decode (b64_prefix self chunk) with
               | Some out =>
                   sink_record (SinkWrite out) (Base64Decoder.underlying self)
               | None => Base64Decoder.underlying self
               end
           end).
    destruct (IH (Base64Decoder.mk (b64_remainder self chunk) mid_sink))
      as (decoded & self' & Hrun & Hdec & Hdlen & Hcache & Hfwd);
      [cbn [Base64Decoder.cache]; lia
      | cbn [Base64Decoder.cache]; exact Hralpha |].
    cbn [Base64Decoder.cache Base64Decoder.underlying] in *.
    destruct (b64decode_quads_app (b64_prefix self chunk) _ decoded k
                ltac:(lia) Hpalpha Hdec)
      as (front & Hflen & Hfront & Hboth).
    set (tail := b64_remainder self chunk ++ concat more) in *.
    assert (Hcut : length (b64_buffer self chunk ++ concat more) / 4
                   = k + length tail / 4).
    { rewrite Hsplit, <- app_assoc. fold tail.
      rewrite length_app, Hplen.
      rewrite Nat.div_add_l by lia. reflexivity. }
    exists (front ++ decoded), self'.
    rewrite Hcut, Hsplit, <- app_assoc. fold tail.
    replace ((k + length tail / 4) * 4)
      with (length (b64_prefix self chunk) + length tail / 4 * 4) by lia.
    repeat split.
    + cbn [Base64Decoder.write_all]. unfold bind.
      rewrite b64_write_unfold. subst mid_sink.
      destruct (b64_prefix self chunk) as [|c val] eqn:Hprefix.
      * exact Hrun.
      * rewrite Hfront in Hrun |- *. exact Hrun.
    + rewrite firstn_app_2. exact Hboth.
    + rewrite length_app. lia.
    + rewrite skipn_app, skipn_all2 by lia.
      replace (length (b64_prefix self chunk) + length tail / 4 * 4
               - length (b64_prefix self chunk))
        with (length tail / 4 * 4) by lia.
      exact Hcache.
    + rewrite Hfwd, app_assoc. f_equal. subst mid_sink.
      destruct (b64_prefix self chunk) as [|c val] eqn:Hprefix.
      * cbn [length] in Hplen. assert (k = 0) by lia.
        destruct front; [symmetry; apply app_nil_r | cbn [length] in Hflen; lia].
      * rewrite Hfront. apply forwarded_write.
Qed.

(** X9: on input made of alphabet bytes only (no pad, nothing else), the
    cutting into writes does not matter to the Base64 decoder and no write
    fails: after the writes, the sink has been forwarded the decoding of the
    whole quads of the input, three bytes for each, the cache holds the bytes
    after the last whole quad, and both are as after a single write of the
    whole input. *)
Theorem base64_alphabet_stream_chunk_invariant :
  forall (chunks : list bytes) (sink : Sink),
    forallb is_alphabet (concat chunks) = true ->
    let input := concat chunks in
    let after := Base64Decoder.write_all chunks (Base64Decoder.init sink) in
    let single := Base64Decoder.write input (Base64Decoder.init sink) in
    exists decoded,
      fst after = Returns tt /\
      b64decode (firstn (length input / 4 * 4) input) = Some decoded /\
      length decoded = 3 * (length input / 4) /\
      Base64Decoder.cache (snd after) = skipn (length input / 4 * 4) input /\
      forwarded (Base64Decoder.underlying (snd after))
      = forwarded sink ++ decoded /\
      raised (fst single) = false /\
      Base64Decoder.cache (snd after) = Base64Decoder.cache (snd single) /\
      forwarded (Base64Decoder.underlying (snd after))
      = forwarded (Base64Decoder.underlying (snd single)).
Proof.
  intros chunks sink Halpha. cbv zeta.
  destruct (b64_write_all_alphabet chunks (Base64Decoder.init sink))
    as (decoded & self' & Hrun & Hdec & Hlen & Hcache & Hfwd);
    [cbn; lia | exact Halpha |].
  destruct (b64_write_all_alphabet [concat chunks] (Base64Decoder.init sink))
    as (decoded1 & self1 & Hrun1 & Hdec1 & Hlen1 & Hcache1 & Hfwd1);
    [cbn; lia
    | cbn [concat Base64Decoder.init Base64Decoder.cache app];
      rewrite app_nil_r; exact Halpha |].
  cbn [concat Base64Decoder.init Base64Decoder.cache
       Base64Decoder.underlying app] in *.
  rewrite app_nil_r in *.
  assert (decoded1 = decoded) by congruence. subst decoded1.
  cbn [Base64Decoder.write_all] in Hrun1. unfold bind, ret in Hrun1.
  unfold Base64Decoder.init in *.
  destruct (Base64Decoder.write (concat chunks) (Base64Decoder.mk [] sink))
    as [[n|e] one]; [|discriminate].
  inversion Hrun1; subst one.
  exists decoded. rewrite Hrun. cbn [fst snd raised].
  repeat split; try assumption; congruence.
Qed.

Lemma base64_alphabet_stream_chunk_invariant_witness :
  exists decoded,
    fst (Base64Decoder.write_all [b "Zm9"; b "vYm"; b "F"]
           (Base64Decoder.init (new_sink false false))) = Returns tt /\
    b64decode (firstn (7 / 4 * 4) (b "Zm9vYmF")) = Some decoded /\
    length decoded = 3 * (7 / 4) /\
    Base64Decoder.cache
      (snd (Base64Decoder.write_all [b "Zm9"; b "vYm"; b "F"]
              (Base64Decoder.init (new_sink false false))))
    = skipn (7 / 4 * 4) (b "Zm9vYmF") /\
    forwarded
      (Base64Decoder.underlying
         (snd (Base64Decoder.write_all [b "Zm9"; b "vYm"; b "F"]
                 (Base64Decoder.init (new_sink false false)))))
    = [] ++ decoded /\
    raised (fst (Base64Decoder.write (b "Zm9vYmF")
                   (Base64Decoder.init (new_sink false false)))) = false /\
    Base64Decoder.cache
      (snd (Base64Decoder.write_all [b "Zm9"; b "vYm"; b "F"]
              (Base64Decoder.init (new_sink false false))))
    = Base64Decoder.cache
        (snd (Base64Decoder.write (b "Zm9vYmF")
                (Base64Decoder.init (new_sink false false)))) /\
    forwarded
      (Base64Decoder.underlying
         (snd (Base64Decoder.write_all [b "Zm9"; b "vYm"; b "F"]
                 (Base64Decoder.init (new_sink false false)))))
    = forwarded
        (Base64Decoder.underlying
           (snd (Base64Decoder.write (b "Zm9vYmF")
                   (Base64Decoder.init (new_sink false false))))).
Proof.
  apply (base64_alphabet_stream_chunk_invariant [b "Zm9"; b "vYm"; b "F"]
           (new_sink false false) eq_refl).
Defined.

(** The loop emits at most three bytes for four input bytes: in quad
    position 1, 2 and 3 it may still emit 3, 2 and 1 bytes for the quad it
    is in. *)
Lemma a2b_base64_loop_output_bound data :
  forall quad_pos leftchar pads bin_data out,
    quad_pos < 4 ->
    a2b_base64_loop data quad_pos leftchar pads bin_data = Some out ->
    length bin_data <= length out /\
    4 * length out + 4 * quad_pos
    <= 4 * length bin_data + 3 * length data + 3 * quad_pos
       + (if Nat.eqb quad_pos 0 then 0 else 4).
Proof.
  induction data as [|c rest IH]; intros q l p acc out Hq Hloop.
  - cbn [a2b_base64_loop] in Hloop.
    destruct q; cbn in Hloop; [|discriminate].
    inversion Hloop; subst. cbn. lia.
  - cbn [a2b_base64_loop] in Hloop. cbn [length].
    destruct (Byte.eqb c EQUALS).
    + destruct (Nat.leb 2 q) eqn:E2.
      * destruct (Nat.leb 4 (q + S p)).
        -- inversion Hloop; subst. apply Nat.leb_le in E2.
           destruct q as [|q]; [lia|]. cbn [Nat.eqb]. lia.
        -- apply IH in Hloop; [|exact Hq]. lia.
      * apply IH in Hloop; [|exact Hq]. lia.
    + destruct (64 <=? table_a2b_base64 c)%N.
      * apply IH in Hloop; [|exact Hq]. lia.
      * destruct q as [|[|[|[|q]]]]; try lia;
          apply IH in Hloop; try lia;
          rewrite ?length_app in Hloop; cbn [length Nat.eqb] in Hloop |- *; lia.
Qed.

(** X10: a Base64 write that returns forwards at most three bytes for every
    four of its aligned prefix, hence at most three quarters of the length it
    returns; and what the sink had been forwarded before is kept in front. *)
Theorem base64_write_output_bound :
  forall (self : Base64Decoder.t) (data : bytes) (n : nat)
         (self' : Base64Decoder.t),
    Base64Decoder.write data self = (Returns n, self') ->
    exists decoded,
      forwarded (Base64Decoder.underlying self')
      = forwarded (Base64Decoder.underlying self) ++ decoded /\
      4 * length decoded <= 3 * length (b64_prefix self data) /\
      4 * length decoded <= 3 * n.
Proof.
  intros self data n self' Hw. rewrite b64_write_unfold in Hw.
  pose proof (b64_prefix_length self data) as Hplen.
  pose proof (Nat.Div0.mul_div_le (length (b64_buffer self data)) 4) as Hle.
  destruct (b64_prefix self data) as [|c val] eqn:Hprefix.
  - inversion Hw; subst. exists []. cbn [Base64Decoder.underlying length].
    rewrite app_nil_r. repeat split; lia.
  - destruct (b64decode (c :: val)) as [out|] eqn:Hout; [|discriminate].
    inversion Hw; subst. exists out. cbn [Base64Decoder.underlying].
    unfold b64decode, a2b_base64 in Hout.
    apply a2b_base64_loop_output_bound in Hout; [|lia].
    cbn [length Nat.eqb] in Hout.
    repeat split; [apply forwarded_write | |]; cbn [length] in *; lia.
Qed.

Lemma base64_write_output_bound_witness :
  exists decoded,
    forwarded (sink_record (SinkWrite (b "foo")) (new_sink false false))
    = forwarded (new_sink false false) ++ decoded /\
    4 * length decoded
    <= 3 * length (b64_prefix (Base64Decoder.init (new_sink false false))
                     (b "Zm9v!!!!")) /\
    4 * length decoded <= 3 * 8.
Proof.
  apply (base64_write_output_bound
           (Base64Decoder.init (new_sink false false)) (b "Zm9v!!!!") 8
           (Base64Decoder.mk []
              (sink_record (SinkWrite (b "foo")) (new_sink false false)))).
  reflexivity.
Defined.

Lemma a2b_base64_loop_padded (s : list byte) :
  forall rest leftchar pads bin_data,
    length s mod 3 <> 0 ->
    a2b_base64_loop (b64encode s ++ rest) 0 leftchar pads bin_data =
    Some (bin_data ++ s).
Proof.
  pattern s. apply bytes_ind3; clear s;
    [ | intros x | intros x y | intros x y z more IH];
    intros rest l p out Hpad.
  - exfalso. apply Hpad. reflexivity.
  - cbn [b64encode app].
    rewrite (a2b_base64_loop_sextet _ _ 0) by apply sextet0_ok.
    rewrite (a2b_base64_loop_sextet _ _ 1) by apply tail1_ok.
    rewrite first_byte_tail. reflexivity.
  - cbn [b64encode app].
    rewrite (a2b_base64_loop_sextet _ _ 0) by apply sextet0_ok.
    rewrite (a2b_base64_loop_sextet _ _ 1) by apply sextet1_ok.
    rewrite (a2b_base64_loop_sextet _ _ 2) by apply tail2_ok.
    rewrite first_byte, left_after_second, second_byte_tail.
    cbn. rewrite <- !app_assoc. reflexivity.
  - rewrite b64encode_cons3. cbn [b64encode app].
    rewrite a2b_base64_loop_quad, IH, <- app_assoc; [reflexivity|].
    intros Hmore. apply Hpad. cbn [length].
    replace (S (S (S (length more)))) with (length more + 1 * 3) by lia.
    rewrite Nat.Div0.mod_add. exact Hmore.
Qed.

(** X11: within one Base64 write, nothing after a padded group counts.
    When the bytes written to a fresh decoder are the encoding of a byte
    string that needs padding, followed by any further whole quads (valid
    Base64 or not), the write returns and forwards that byte string alone:
    the bytes after the padding are consumed and dropped. *)
Theorem base64_bytes_after_padding_dropped :
  forall (s rest : bytes) (sink : Sink),
    length s mod 3 <> 0 -> length rest mod 4 = 0 ->
    Base64Decoder.write (b64encode s ++ rest) (Base64Decoder.init sink) =
    (Returns (length (b64encode s) + length rest),
     Base64Decoder.mk [] (sink_record (SinkWrite s) sink)).
Proof.
  intros s rest sink Hpad Hrest. rewrite b64_write_unfold.
  unfold b64_prefix, b64_remainder, b64_buffer, slice_to.
  cbn [Base64Decoder.init Base64Decoder.cache Base64Decoder.underlying app].
  assert (Hlen : length (b64encode s ++ rest) / 4 * 4
                 = length (b64encode s ++ rest)).
  { pose proof (Nat.div_mod_eq (length (b64encode s ++ rest)) 4) as Hdm.
    assert (Hmod : length (b64encode s ++ rest) mod 4 = 0).
    { rewrite length_app, <- Nat.Div0.add_mod_idemp_l, b64encode_length.
      exact Hrest. }
    lia. }
  rewrite Hlen, firstn_all, skipn_all, length_app.
  assert (Hdec : b64decode (b64encode s ++ rest) = Some s)
    by (apply (a2b_base64_loop_padded s rest 0%N 0 [] Hpad)).
  rewrite Hdec.
  destruct (b64encode s ++ rest) as [|c val] eqn:Hbuf; [|reflexivity].
  apply app_eq_nil in Hbuf. destruct Hbuf as [Henc _].
  apply b64encode_nil_inv in Henc. subst s. exfalso. apply Hpad. reflexivity.
Qed.

Lemma base64_bytes_after_padding_dropped_witness :
  Base64Decoder.write (b64encode (b "fo") ++ b "Zm9v")
    (Base64Decoder.init (new_sink false false)) =
  (Returns (length (b64encode (b "fo")) + length (b "Zm9v")),
   Base64Decoder.mk [] (sink_record (SinkWrite (b "fo")) (new_sink false false))).
Proof.
  apply (base64_bytes_after_padding_dropped (b "fo") (b "Zm9v")
           (new_sink false false)).
  - vm_compute. discriminate.
  - reflexivity.
Defined.
